(** * HydraHadesBot: the per-guild music scheduler of [cogs/song.py]

    A shallow embedding of the playback scheduler of the music cog
    (queue, now-playing slot, repeat modes, lazy track resolution, stream
    selection, playlist import, the commands and the buttons of the
    panel) together with the properties the design document states about
    it and further properties read off the code.

    Conventions.
    - A Python [dict] with a fixed set of keys is a record; [d.get(k)] of
      a key that may be missing or [None] is an [option].
    - Python truthiness is written out ([truthy]): [None] and the empty
      string are false.
    - Python floats are binary64 and are modelled by Rocq's primitive
      floats, which round the same way.
    - The chat platform, the voice client and the extraction backend are
      libraries outside the repository.  What the cog asks of them is an
      oracle in an [Env]; a [World] gives the environment met at each
      scheduler step, so nothing assumes that the network answers twice
      in the same way. *)

From Stdlib Require Import List String Bool Arith ZArith QArith Lqa Lia.
From Stdlib Require Import Permutation Sorted.
From Stdlib Require Import Floats.
Import ListNotations.

Set Warnings "-inexact-float".

(** ** Python values *)

Module Py.

(** [bool(v)] for [v] the result of [d.get(k)] on a string-valued key. *)
Definition truthy (v : option string) : bool :=
  match v with
  | Some EmptyString => false
  | Some _ => true
  | None => false
  end.

(** [a or b] on such values: [a] when it is truthy, else [b]. *)
Definition or (a b : option string) : option string :=
  if truthy a then a else b.

(** [v != s] for a string literal [s]. *)
Definition neq_str (v : option string) (s : string) : bool :=
  match v with
  | Some x => negb (String.eqb x s)
  | None => true
  end.

(** [n or 0] on an optional number. *)
Definition num_or_zero (v : option Q) : Q :=
  match v with
  | Some q => if Qeq_bool q 0 then 0 else q
  | None => 0
  end.

(** [l or []] on an optional list. *)
Definition list_or_empty {A : Type} (v : option (list A)) : list A :=
  match v with
  | Some l => l
  | None => []
  end.

Definition is_empty {A : Type} (l : list A) : bool :=
  match l with
  | [] => true
  | _ :: _ => false
  end.

End Py.

(** ** Extraction results *)

(** One entry of [info["formats"]]. *)
Record Format := mkFormat {
  f_url : option string;
  f_src : option string;
  f_acodec : option string;
  f_abr : option Q;
  f_tbr : option Q
}.

(** What the cog reads of one media description (the top-level [info]
    without its entries, or [entries[0]]). *)
Record Media := mkMedia {
  m_url : option string;
  m_formats : option (list Format);
  m_title : option string;
  m_webpage_url : option string;
  m_thumbnail : option string;
  m_thumbnails : option (list (option string))
}.

(** [info]: a media description and, for a search or playlist result, the
    key ["entries"] ([None] when the key is absent; a present key with the
    value [None] reads like the empty list, [info.get("entries") or []]). *)
Record Info := mkInfo {
  i_media : Media;
  i_entries : option (list Media)
}.

(** ** Stream selection: [_select_best_audio_url] *)

Module Select.

(** [score(fmt)]: [(abr or 0, tbr or 0)]. *)
Definition score (fmt : Format) : Q * Q :=
  (Py.num_or_zero (f_abr fmt), Py.num_or_zero (f_tbr fmt)).

(** Python's [<] on pairs: the first components that differ decide. *)
Definition tuple_lt (a b : Q * Q) : bool :=
  if Qeq_bool (fst a) (fst b)
  then negb (Qle_bool (snd b) (snd a))
  else negb (Qle_bool (fst b) (fst a)).

(** [sorted(l, key=score, reverse=True)]: descending and stable (equal
    keys keep their order in [l]). *)
Fixpoint insert_desc (x : Format) (l : list Format) : list Format :=
  match l with
  | [] => [x]
  | y :: l' =>
      if tuple_lt (score x) (score y)
      then y :: insert_desc x l'
      else x :: l
  end.

Fixpoint sorted_desc (l : list Format) : list Format :=
  match l with
  | [] => []
  | x :: l' => insert_desc x (sorted_desc l')
  end.

(** One turn of the loop over [formats]. *)
Definition collect (candidates : list Format) (f : Format) : list Format :=
  let url := Py.or (f_url f) (f_src f) in
  if negb (Py.truthy url) then candidates
  else
    let acodec := f_acodec f in
    if Py.truthy acodec && Py.neq_str acodec "none"
    then candidates ++ [f]
    else candidates ++ [f].

(** The list [candidates] when the loop is over. *)
Definition candidates (info : Media) : list Format :=
  fold_left collect (Py.list_or_empty (m_formats info)) [].

Definition _select_best_audio_url (info : Media) : option string :=
  if Py.truthy (m_url info)
     && Py.is_empty (Py.list_or_empty (m_formats info))
  then m_url info
  else
    let cands := candidates info in
    if Py.is_empty cands then None
    else
      match sorted_desc cands with
      | best :: _ => Py.or (f_url best) (f_src best)
      | [] => None
      end.

(** The order of the scores, as a proposition. *)
Definition lex_lt (a b : Q * Q) : Prop :=
  fst a < fst b \/ (fst a == fst b /\ snd a < snd b).

Definition has_url (f : Format) : bool :=
  Py.truthy (f_url f) || Py.truthy (f_src f).

End Select.

(** ** Tracks, the voice client and the player *)

(** A queued or playing item: the [track] dict built by [add_and_play]
    and [spotify_playlist]. *)
Record Track := mkTrack {
  title : option string;
  webpage_url : option string;
  stream_url : option string;
  duration : option Q;
  thumbnail : option string;
  query : option string
}.

Inductive Repeat := RepeatOff | RepeatAll | RepeatSingle.

(** The audio source handed to [vc.play]: the stream it reads and the
    volume of its [PCMVolumeTransformer]. *)
Record Source := mkSource {
  src_url : option string;
  src_volume : float
}.

(** discord.py's [VoiceClient], by what the cog observes of it:
    [is_playing()], [is_paused()] and the source it holds. *)
Inductive VoiceClient :=
| VcIdle
| VcPlaying (s : Source)
| VcPaused (s : Source).

(** The state of the asyncio task kept in [player["panel_updater"]]. *)
Inductive TaskState := TaskRunning | TaskCancelled | TaskDone.

(** [self.players[guild_id]]. *)
Record Player := mkPlayer {
  voice_client : option VoiceClient;
  queue : list Track;
  now : option Track;
  volume : float;
  repeat : Repeat;
  is_playlist : bool;
  panel_msg_id : option Z;
  panel_channel_id : option Z;
  panel_updater : option TaskState;
  panel_last_active : option float;
  start_time : option float;
  playlist_name : option string
}.

(** [get_player] for a guild seen for the first time and with no stored
    panel. *)
Definition new_player : Player :=
  {| voice_client := None; queue := []; now := None; volume := 0.15;
     repeat := RepeatOff; is_playlist := false;
     panel_msg_id := None; panel_channel_id := None;
     panel_updater := None; panel_last_active := None;
     start_time := None; playlist_name := None |}.

(** Assignments [player[k] = v]. *)
Definition set_voice_client (v : option VoiceClient) (p : Player) : Player :=
  {| voice_client := v; queue := queue p; now := now p; volume := volume p;
     repeat := repeat p; is_playlist := is_playlist p;
     panel_msg_id := panel_msg_id p; panel_channel_id := panel_channel_id p;
     panel_updater := panel_updater p;
     panel_last_active := panel_last_active p;
     start_time := start_time p; playlist_name := playlist_name p |}.

Definition set_queue (v : list Track) (p : Player) : Player :=
  {| voice_client := voice_client p; queue := v; now := now p;
     volume := volume p; repeat := repeat p; is_playlist := is_playlist p;
     panel_msg_id := panel_msg_id p; panel_channel_id := panel_channel_id p;
     panel_updater := panel_updater p;
     panel_last_active := panel_last_active p;
     start_time := start_time p; playlist_name := playlist_name p |}.

Definition set_now (v : option Track) (p : Player) : Player :=
  {| voice_client := voice_client p; queue := queue p; now := v;
     volume := volume p; repeat := repeat p; is_playlist := is_playlist p;
     panel_msg_id := panel_msg_id p; panel_channel_id := panel_channel_id p;
     panel_updater := panel_updater p;
     panel_last_active := panel_last_active p;
     start_time := start_time p; playlist_name := playlist_name p |}.


Definition set_repeat (v : Repeat) (p : Player) : Player :=
  {| voice_client := voice_client p; queue := queue p; now := now p;
     volume := volume p; repeat := v; is_playlist := is_playlist p;
     panel_msg_id := panel_msg_id p; panel_channel_id := panel_channel_id p;
     panel_updater := panel_updater p;
     panel_last_active := panel_last_active p;
     start_time := start_time p; playlist_name := playlist_name p |}.

Definition set_is_playlist (v : bool) (p : Player) : Player :=
  {| voice_client := voice_client p; queue := queue p; now := now p;
     volume := volume p; repeat := repeat p; is_playlist := v;
     panel_msg_id := panel_msg_id p; panel_channel_id := panel_channel_id p;
     panel_updater := panel_updater p;
     panel_last_active := panel_last_active p;
     start_time := start_time p; playlist_name := playlist_name p |}.

Definition set_panel (msg_id channel_id : option Z) (p : Player) : Player :=
  {| voice_client := voice_client p; queue := queue p; now := now p;
     volume := volume p; repeat := repeat p; is_playlist := is_playlist p;
     panel_msg_id := msg_id; panel_channel_id := channel_id;
     panel_updater := panel_updater p;
     panel_last_active := panel_last_active p;
     start_time := start_time p; playlist_name := playlist_name p |}.

Definition set_panel_updater (v : option TaskState) (p : Player) : Player :=
  {| voice_client := voice_client p; queue := queue p; now := now p;
     volume := volume p; repeat := repeat p; is_playlist := is_playlist p;
     panel_msg_id := panel_msg_id p; panel_channel_id := panel_channel_id p;
     panel_updater := v;
     panel_last_active := panel_last_active p;
     start_time := start_time p; playlist_name := playlist_name p |}.

Definition set_panel_last_active (v : option float) (p : Player) : Player :=
  {| voice_client := voice_client p; queue := queue p; now := now p;
     volume := volume p; repeat := repeat p; is_playlist := is_playlist p;
     panel_msg_id := panel_msg_id p; panel_channel_id := panel_channel_id p;
     panel_updater := panel_updater p;
     panel_last_active := v;
     start_time := start_time p; playlist_name := playlist_name p |}.

Definition set_start_time (v : option float) (p : Player) : Player :=
  {| voice_client := voice_client p; queue := queue p; now := now p;
     volume := volume p; repeat := repeat p; is_playlist := is_playlist p;
     panel_msg_id := panel_msg_id p; panel_channel_id := panel_channel_id p;
     panel_updater := panel_updater p;
     panel_last_active := panel_last_active p;
     start_time := v; playlist_name := playlist_name p |}.

Definition set_playlist_name (v : option string) (p : Player) : Player :=
  {| voice_client := voice_client p; queue := queue p; now := now p;
     volume := volume p; repeat := repeat p; is_playlist := is_playlist p;
     panel_msg_id := panel_msg_id p; panel_channel_id := panel_channel_id p;
     panel_updater := panel_updater p;
     panel_last_active := panel_last_active p;
     start_time := start_time p; playlist_name := v |}.

(** ** The environment *)

(** What the display refresh of [_play_next] meets: no channel to reach,
    an edit of the panel message that works, or one that raises. *)
Inductive EditOutcome := EditNoChannel | EditDone | EditRaised.

(** What the cog is told by the libraries it calls, at one moment.
    - [video_search q]: [res[0].get("link")] of [VideosSearch(q, limit=1)];
      [None] when the module is missing, the call raises or nothing is
      found.
    - [extract_info t], [extract_info_web t]: [ytdl.extract_info(t)] with
      the default client and with [player_client=web]; [None] when the
      call raises or returns a falsy answer, [None] or an empty dict:
      the cog tells the two apart nowhere ([if not i], [info2 or info],
      [if not info]).
    - [notice_channel]: the first text channel of the guild the bot may
      send to; [None] when the guild is unknown or has no such channel.
    - [can_play u]: [FFmpegPCMAudio(u)] can be built and the connected
      client accepts it.
    - [time_now]: [time.time()], read once for the whole run.
    - [panel_edit], [panel_send]: the outcome of editing the panel message
      and, for a new panel, the ids of the message sent and of its
      channel. *)
Record Env := mkEnv {
  video_search : string -> option string;
  extract_info : string -> option Info;
  extract_info_web : string -> option Info;
  notice_channel : option Z;
  can_play : option string -> bool;
  time_now : float;
  panel_edit : EditOutcome;
  panel_send : option (Z * Z)
}.

(** The environment met by the [n]-th run of [_play_next]. *)
Definition World := nat -> Env.

(** Messages the scheduler sends to a text channel. *)
Inductive Msg :=
| SkippedTrack (channel : Z) (track_title : option string)
| PlaybackError (channel : Z).

(** ** Lazy resolution *)

Module Resolver.

Import Select.

Definition is_some {A : Type} (v : option A) : bool :=
  match v with Some _ => true | None => false end.

(** [has_playable], local to [_extract_info_with_retry]. *)
Definition has_playable (i : option Info) : bool :=
  match i with
  | None => false
  | Some i =>
      let playable (m : Media) :=
        is_some (_select_best_audio_url m) || Py.truthy (m_url m) in
      match i_entries i with
      | Some [] => false
      | Some (e :: _) => playable e
      | None => playable (i_media i)
      end
  end.

(** The last line is [return info2 or info]: the first answer comes
    back when the retry raised or gave a falsy answer ([None] here). *)
Definition _extract_info_with_retry (env : Env) (target : string)
  : option Info :=
  let info := extract_info env target in
  if has_playable info then info
  else
    let info2 := extract_info_web env target in
    if has_playable info2 then info2
    else match info2 with Some _ => info2 | None => info end.

Definition last_thumbnail (thumbs : list (option string)) : option string :=
  last thumbs None.

(** [_resolve_lazy_track].  The function changes the dict it is given
    and returns it: [Some t'] is that dict after the call.  Every
    [return None] comes before the first assignment, so on [None] the
    dict is as it was. *)
Definition _resolve_lazy_track (env : Env) (track : Track) : option Track :=
  if Py.truthy (stream_url track) then Some track
  else
    match query track with
    | None | Some EmptyString => None
    | Some q =>
        let target := video_search env q in
        let target :=
          match target with
          | Some (String _ _ as link) => link
          | _ => ("ytsearch1:" ++ q)%string
          end in
        match _extract_info_with_retry env target with
        | None => None
        | Some info =>
            let picked :=
              match i_entries info with
              | Some [] => None
              | Some (e :: _) => Some e
              | None => Some (i_media info)
              end in
            match picked with
            | None => None
            | Some info =>
                let url := Py.or (_select_best_audio_url info) (m_url info) in
                if negb (Py.truthy url) then None
                else
                  let thumb := m_thumbnail info in
                  let thumb :=
                    if Py.truthy thumb then thumb
                    else last_thumbnail (Py.list_or_empty (m_thumbnails info)) in
                  Some {| title := if Py.truthy (m_title info)
                                   then m_title info else title track;
                          webpage_url := if Py.truthy (m_webpage_url info)
                                         then m_webpage_url info
                                         else webpage_url track;
                          stream_url := url;
                          duration := duration track;
                          thumbnail := if Py.truthy thumb
                                       then thumb else thumbnail track;
                          query := query track |}
            end
        end
    end.

(** A track that waits for its resolution. *)
Definition pending (t : Track) : bool :=
  negb (Py.truthy (stream_url t)) && Py.truthy (query t).

End Resolver.

(** ** The voice client *)

Module Voice.

Definition is_playing (vc : VoiceClient) : bool :=
  match vc with VcPlaying _ => true | _ => false end.

Definition is_paused (vc : VoiceClient) : bool :=
  match vc with VcPaused _ => true | _ => false end.

(** [vc.stop()].  The second component tells whether a player was
    running or paused: that player ends, and its [after] callback is
    called once, from the audio thread, with no error. *)
Definition stop (vc : VoiceClient) : VoiceClient * bool :=
  match vc with
  | VcIdle => (VcIdle, false)
  | VcPlaying _ | VcPaused _ => (VcIdle, true)
  end.

Definition pause (vc : VoiceClient) : VoiceClient :=
  match vc with VcPlaying s => VcPaused s | _ => vc end.

Definition resume (vc : VoiceClient) : VoiceClient :=
  match vc with VcPaused s => VcPlaying s | _ => vc end.

(** [vc.play(source, after=...)]: raises ([None]) while a player is
    running. *)
Definition play (vc : VoiceClient) (s : Source) : option VoiceClient :=
  match vc with
  | VcPlaying _ => None
  | VcIdle | VcPaused _ => Some (VcPlaying s)
  end.


(** The stream comes to its end by itself: the [after] callback is
    called as for [stop]. *)
Definition finish (vc : VoiceClient) : VoiceClient * bool :=
  match vc with
  | VcPlaying _ => (VcIdle, true)
  | _ => (vc, false)
  end.

End Voice.

(** ** The scheduler: [_after_play] and [_play_next] *)

Module Scheduler.

Import Resolver.

(** [if updater and not updater.done(): updater.cancel()]. *)
Definition cancel_updater (p : Player) : Player :=
  match panel_updater p with
  | Some TaskRunning => set_panel_updater (Some TaskCancelled) p
  | _ => p
  end.

(** [touch_panel] for a player that exists. *)
Definition touch_panel (env : Env) (p : Player) : Player :=
  set_panel_last_active (Some (time_now env)) p.

(** [_after_play] down to [await asyncio.sleep(0.4)]: the repeat
    decision on the track that ended, then the slot is emptied. *)
Definition after_play_reinsert (player : Player) : Player :=
  let player :=
    match now player with
    | Some track =>
        match repeat player with
        | RepeatSingle => set_queue (track :: queue player) player
        | RepeatAll => set_queue (queue player ++ [track]) player
        | RepeatOff => player
        end
    | None => player
    end in
  let player := set_now None player in
  let player := set_start_time None player in
  cancel_updater player.

(** [ensure_panel_for_guild(channel, guild_id, force=True)]: the old
    panel goes, a new one is sent; when the send raises no panel is
    left. *)
Definition ensure_panel_forced (env : Env) (player : Player) : Player :=
  match panel_send env with
  | Some (msg_id, channel_id) =>
      set_panel_last_active (Some (time_now env))
        (set_panel (Some msg_id) (Some channel_id) player)
  | None => set_panel None (panel_channel_id player) player
  end.

(** The block of [_play_next] that refreshes the panel once playback has
    started: edit the message when there is one; when that raises, make a
    new panel. *)
Definition refresh_panel (env : Env) (player : Player) : Player :=
  match panel_msg_id player with
  | None => player
  | Some _ =>
      match panel_edit env with
      | EditNoChannel | EditDone => player
      | EditRaised => ensure_panel_forced env player
      end
  end.

(** The [try] block of [_play_next]: [None] when building the source
    or [vc.play] raises. *)
Definition start_playback (env : Env) (vc : VoiceClient) (player : Player)
    (url : option string) : option Player :=
  if can_play env url then
    match Voice.play vc {| src_url := url; src_volume := volume player |} with
    | Some vc' =>
        let player := set_start_time (Some (time_now env)) player in
        let player := set_voice_client (Some vc') player in
        let player := refresh_panel env player in
        let player := set_panel_last_active (Some (time_now env)) player in
        let player := cancel_updater player in
        Some (set_panel_updater (Some TaskRunning) player)
    | None => None
    end
  else None.

(** The notice of a track that could not be resolved, when there is a
    channel to send it to. *)
Definition skip_notice (env : Env) (t : Track) : list Msg :=
  match notice_channel env with
  | Some ch => [SkippedTrack ch (title t)]
  | None => []
  end.

Definition error_notice (env : Env) : list Msg :=
  match notice_channel env with
  | Some ch => [PlaybackError ch]
  | None => []
  end.

(** [_play_next], with the messages it sends.  The function calls
    itself after a failed resolution and, through [_after_play], after
    a failed start; [fuel] bounds the number of these calls and [None]
    says that it ran out.  The run number [n] picks the environment. *)
Fixpoint _play_next (fuel : nat) (w : World) (n : nat) (player : Player)
  : option (Player * list Msg) :=
  match fuel with
  | O => None
  | S fuel =>
      let env := w n in
      match voice_client player with
      | None => Some (player, [])
      | Some vc =>
          match queue player with
          | [] => Some (set_now None player, [])
          | next_track :: rest =>
              let player := set_queue rest player in
              let resolved :=
                if pending next_track
                then _resolve_lazy_track env next_track
                else Some next_track in
              match resolved with
              | None =>
                  match _play_next fuel w (S n) player with
                  | Some (p, log) => Some (p, skip_notice env next_track ++ log)
                  | None => None
                  end
              | Some next_track =>
                  let player := set_now (Some next_track) player in
                  match start_playback env vc player (stream_url next_track) with
                  | Some player => Some (player, [])
                  | None =>
                      match _play_next fuel w (S n)
                              (after_play_reinsert player) with
                      | Some (p, log) => Some (p, error_notice env ++ log)
                      | None => None
                      end
                  end
              end
          end
      end
  end.

(** [_after_play]: the repeat decision, then the advance. *)
Definition _after_play (fuel : nat) (w : World) (n : nat) (player : Player)
  : option (Player * list Msg) :=
  _play_next fuel w n (after_play_reinsert player).

End Scheduler.

(** ** Commands and buttons *)

(** Python's [min(a, b)] and [max(a, b)] on floats: the first argument
    stays unless the second is strictly smaller (larger). *)
Module PyFloat.

Definition min (a b : float) : float :=
  if PrimFloat.ltb b a then b else a.

Definition max (a b : float) : float :=
  if PrimFloat.ltb a b then b else a.

End PyFloat.

(** The states of a session, read off the voice client. *)
Inductive State := Idle | Playing | Paused.

Definition state (p : Player) : State :=
  match voice_client p with
  | Some (VcPlaying _) => Playing
  | Some (VcPaused _) => Paused
  | Some VcIdle | None => Idle
  end.

(** Answers to the user. *)
Inductive Reply :=
| NothingToSkip
| Skipped
| NotConnected
| StoppedAndCleared
| NothingIsPlaying
| NothingIsPaused
| PausedReply
| ResumedReply.

(** What a command leaves behind: the player, the answer, and whether the
    voice client was made to call its [after] callback, which schedules
    [_after_play] on the event loop. *)
Record Outcome := mkOutcome {
  out_player : Player;
  out_reply : Reply;
  out_after : bool
}.

(** The commands of [MusicCog]. *)
Module Cog.

Import Scheduler.

Definition skip (env : Env) (player : Player) : Outcome :=
  match voice_client player with
  | None => mkOutcome player NothingToSkip false
  | Some vc =>
      if negb (Voice.is_playing vc) && negb (Voice.is_paused vc)
      then mkOutcome player NothingToSkip false
      else
        let (vc, fired) := Voice.stop vc in
        let player := set_voice_client (Some vc) player in
        mkOutcome (touch_panel env player) Skipped fired
  end.

Definition stop (env : Env) (player : Player) : Outcome :=
  match voice_client player with
  | None => mkOutcome player NotConnected false
  | Some vc =>
      let (vc, fired) := Voice.stop vc in
      let player := set_voice_client (Some vc) player in
      let player := set_queue [] player in
      let player := set_is_playlist false player in
      let player := cancel_updater player in
      mkOutcome (touch_panel env player) StoppedAndCleared fired
  end.

Definition pause (env : Env) (player : Player) : Outcome :=
  match voice_client player with
  | Some (VcPlaying _ as vc) =>
      let player := set_voice_client (Some (Voice.pause vc)) player in
      mkOutcome (touch_panel env player) PausedReply false
  | _ => mkOutcome player NothingIsPlaying false
  end.

Definition resume (env : Env) (player : Player) : Outcome :=
  match voice_client player with
  | Some (VcPaused _ as vc) =>
      let player := set_voice_client (Some (Voice.resume vc)) player in
      mkOutcome (touch_panel env player) ResumedReply false
  | _ => mkOutcome player NothingIsPaused false
  end.

End Cog.

(** The buttons of [MusicPanel], for a guild that has a player. *)
Module Panel.

Import Scheduler.

Definition stop (env : Env) (player : Player) : Outcome :=
  let player := touch_panel env player in
  match voice_client player with
  | None => mkOutcome player NotConnected false
  | Some vc =>
      let (vc, fired) := Voice.stop vc in
      let player := set_voice_client (Some vc) player in
      let player := set_queue [] player in
      mkOutcome player StoppedAndCleared fired
  end.

Definition skip (env : Env) (player : Player) : Outcome :=
  let player := touch_panel env player in
  match voice_client player with
  | None => mkOutcome player NothingToSkip false
  | Some vc =>
      if Voice.is_playing vc || Voice.is_paused vc
      then
        let (vc, fired) := Voice.stop vc in
        mkOutcome (set_voice_client (Some vc) player) Skipped fired
      else mkOutcome player NothingToSkip false
  end.

Definition repeat_btn (env : Env) (player : Player) : Player :=
  let player := touch_panel env player in
  let mode :=
    match repeat player with
    | RepeatOff => RepeatAll
    | RepeatAll => RepeatSingle
    | RepeatSingle => RepeatOff
    end in
  set_repeat mode player.




End Panel.

(** ** A command followed by the callback it causes *)

Module Session.

Import Scheduler.

(** The event loop runs the [_after_play] that the callback scheduled
    ([fired]); nothing else touches the player in between. *)
Definition settle (fuel : nat) (w : World) (n : nat)
    (fired : bool) (p : Player) : option (Player * list Msg) :=
  if fired then _after_play fuel w n p else Some (p, []).

Definition skip (fuel : nat) (w : World) (n : nat) (p : Player) :=
  let o := Cog.skip (w n) p in
  settle fuel w n (out_after o) (out_player o).

Definition stop (fuel : nat) (w : World) (n : nat) (p : Player) :=
  let o := Cog.stop (w n) p in
  settle fuel w n (out_after o) (out_player o).

Definition panel_stop (fuel : nat) (w : World) (n : nat) (p : Player) :=
  let o := Panel.stop (w n) p in
  settle fuel w n (out_after o) (out_player o).

(** The stream of the playing track comes to its end. *)
Definition track_ends (p : Player) : Player * bool :=
  match voice_client p with
  | Some vc =>
      let (vc, fired) := Voice.finish vc in
      (set_voice_client (Some vc) p, fired)
  | None => (p, false)
  end.

Definition natural_end (fuel : nat) (w : World) (n : nat) (p : Player) :=
  let (p, fired) := track_ends p in
  settle fuel w n fired p.

End Session.

(** ** More commands and buttons: the pause toggle, leave, shuffle *)

Module Controls.

Import Scheduler.

(** The button [MusicPanel.pause_resume]. *)
Definition pause_resume (env : Env) (player : Player) : Outcome :=
  let player := touch_panel env player in
  match voice_client player with
  | None => mkOutcome player NotConnected false
  | Some vc =>
      if Voice.is_paused vc
      then mkOutcome (set_voice_client (Some (Voice.resume vc)) player)
             ResumedReply false
      else if Voice.is_playing vc
      then mkOutcome (set_voice_client (Some (Voice.pause vc)) player)
             PausedReply false
      else mkOutcome player NothingIsPlaying false
  end.

(** [await vc.disconnect()]: the client stops what it plays, which makes
    the [after] callback fire as for [vc.stop()]. *)
Definition disconnect (player : Player) : Player * bool :=
  match voice_client player with
  | Some vc =>
      let (vc, fired) := Voice.stop vc in
      (set_voice_client (Some vc) player, fired)
  | None => (player, false)
  end.

(** The assignments of [leave] once the client is disconnected. *)
Definition forget (player : Player) : Player :=
  let player := set_voice_client None player in
  let player := set_queue [] player in
  let player := set_now None player in
  let player := set_repeat RepeatOff player in
  let player := set_is_playlist false player in
  cancel_updater player.


(** The button [MusicPanel.leave]. *)
Definition panel_leave (env : Env) (player : Player) : option (Player * bool) :=
  let player := touch_panel env player in
  match voice_client player with
  | None => None
  | Some _ =>
      let (player, fired) := disconnect player in
      Some (forget player, fired)
  end.

(** [x[i] = v] on a list. *)
Fixpoint assign {A : Type} (i : nat) (v : A) (x : list A) : list A :=
  match x, i with
  | [], _ => []
  | _ :: x, O => v :: x
  | a :: x, S i => a :: assign i v x
  end.

(** [x[i], x[j] = x[j], x[i]]. *)
Definition swap {A : Type} (i j : nat) (x : list A) : list A :=
  match nth_error x j, nth_error x i with
  | Some b, Some a => assign j a (assign i b x)
  | _, _ => x
  end.

(** [random.shuffle(x)]: for [i] from [len(x) - 1] down to 1, swap
    [x[i]] with [x[j]], [j = randbelow(i + 1)].  [draw i] is the number
    drawn at step [i], taken below [i + 1]. *)
Fixpoint shuffle_down {A : Type} (i : nat) (draw : nat -> nat) (x : list A)
  : list A :=
  match i with
  | O => x
  | S i' => shuffle_down i' draw (swap i (draw i mod (i + 1)) x)
  end.

Definition shuffle {A : Type} (draw : nat -> nat) (x : list A) : list A :=
  shuffle_down (List.length x - 1) draw x.

(** The button [MusicPanel.shuffle_btn]. *)
Definition shuffle_btn (env : Env) (draw : nat -> nat) (player : Player)
  : Player :=
  let player := touch_panel env player in
  set_queue (shuffle draw (queue player)) player.

End Controls.

(** ** Playlist import: [spotify_playlist] *)

Module Playlist.

Import Scheduler.
Open Scope Z_scope.

Definition SPOTIFY_PLAYLIST_LIMIT : Z := 200.
Definition per_page : Z := 100.

(** [it["track"]] of a playlist item. *)
Record SpotifyTrack := mkSpotifyTrack {
  sp_name : option string;
  sp_artists : list (option string);
  sp_url : option string;
  sp_duration_ms : option Z
}.

Definition Item := option SpotifyTrack.

(** The Spotify client, for the playlist id parsed from the request.
    - [playlist_meta]: [(total, name)] of the playlist; [None] when the
      call (or reading its answer) raises.
    - [playlist_items limit offset]: [results.get("items", []) or []];
      [None] when the call raises. *)
Record Api := mkApi {
  playlist_meta : option (option Z * option string);
  playlist_items : Z -> Z -> option (list Item)
}.

(** [str(v)] inside an f-string. *)
Definition fmt (v : option string) : string :=
  match v with Some s => s | None => "None" end.

(** [", ".join(names)]. *)
Fixpoint join (names : list string) : string :=
  match names with
  | [] => EmptyString
  | [a] => a
  | a :: rest => (a ++ ", " ++ join rest)%string
  end.

Definition artist_names (artists : list (option string)) : list string :=
  flat_map (fun a => match a with
                     | Some (String _ _ as s) => [s]
                     | _ => []
                     end) artists.

(** The [track] dict made of one playlist item. *)
Definition track_of (track_obj : SpotifyTrack) : Track :=
  let title := sp_name track_obj in
  let artists := join (artist_names (sp_artists track_obj)) in
  let has_artists := negb (String.eqb artists EmptyString) in
  {| title := if has_artists
              then Some (fmt title ++ " - " ++ artists)%string else title;
     webpage_url := sp_url track_obj;
     stream_url := None;
     duration := match sp_duration_ms track_obj with
                 | Some ms => if ms =? 0 then None
                              else Some (inject_Z (ms / 1000))
                 | None => None
                 end;
     thumbnail := None;
     query := if has_artists
              then Some (fmt title ++ " " ++ artists)%string else title |}.

(** The variables of the paging loop. *)
Record Import := mkImport {
  fetched : Z;
  offset : Z;
  added : Z;
  imp_player : Player
}.

Definition limit_reached (n : Z) : bool :=
  negb (SPOTIFY_PLAYLIST_LIMIT =? 0) && (SPOTIFY_PLAYLIST_LIMIT <=? n).

(** [for it in items: ...], with its [continue] and [break]. *)
Fixpoint add_items (items : list Item) (s : Import) : Import :=
  match items with
  | [] => s
  | None :: rest => add_items rest s
  | Some track_obj :: rest =>
      let player := imp_player s in
      let player := set_queue (queue player ++ [track_of track_obj]) player in
      let s := {| fetched := fetched s + 1; offset := offset s;
                  added := added s + 1; imp_player := player |} in
      if limit_reached (fetched s) then s else add_items rest s
  end.

(** One turn of [while True]: go on, leave the loop, or raise. *)
Inductive Turn :=
| Continue (s : Import)
| Break (s : Import)
| Raise (s : Import).

(** The size of the page to ask for. *)
Definition page_size (s : Import) : Z :=
  if negb (SPOTIFY_PLAYLIST_LIMIT =? 0)
  then Z.min per_page (Z.max 1 (SPOTIFY_PLAYLIST_LIMIT - fetched s))
  else per_page.

Definition turn (api : Api) (total_expected : option Z) (s : Import) : Turn :=
  let to_fetch := page_size s in
  if to_fetch <=? 0 then Break s
  else
    match playlist_items api to_fetch (offset s) with
    | None => Raise s
    | Some items =>
        if Py.is_empty items then Break s
        else
          let s := add_items items s in
          let s := {| fetched := fetched s;
                      offset := offset s + Z.of_nat (List.length items);
                      added := added s; imp_player := imp_player s |} in
          if limit_reached (fetched s) then Break s
          else if match total_expected with
                  | Some total => total <=? offset s
                  | None => false
                  end then Break s
          else if Z.of_nat (List.length items) <? to_fetch then Break s
          else Continue s
    end.

(** How the loop ends. *)
Inductive Fetch :=
| Completed (s : Import)
| Failed (s : Import).

(** [while True], at most [fuel] turns. *)
Fixpoint fetch_loop (fuel : nat) (api : Api) (total_expected : option Z)
    (s : Import) : option Fetch :=
  match fuel with
  | O => None
  | S fuel =>
      match turn api total_expected s with
      | Continue s => fetch_loop fuel api total_expected s
      | Break s => Some (Completed s)
      | Raise s => Some (Failed s)
      end
  end.

(** The metadata request, in its own [try]. *)
Definition read_meta (api : Api) (player : Player) : option Z * Player :=
  match playlist_meta api with
  | Some (total, name) =>
      (total, if Py.truthy name then set_playlist_name name player else player)
  | None => (None, player)
  end.

(** What the user is told. *)
Inductive Report :=
| CouldNotFetch
| AddedTracks (n : Z) (name : option string).

(** [spotify_playlist] from the paging on, for a request whose playlist
    id was parsed.  [voice] is what [ensure_voice] returns: the voice
    client of the guild, or [None] when the user is in no voice channel
    or the connection fails. *)
Definition spotify_playlist (fuel : nat) (api : Api) (w : World) (n : nat)
    (voice : option VoiceClient) (player : Player)
  : option (Player * Report * list Msg) :=
  let env := w n in
  let (total_expected, player) := read_meta api player in
  match fetch_loop fuel api total_expected
          {| fetched := 0; offset := 0; added := 0; imp_player := player |} with
  | None => None
  | Some (Failed s) => Some (imp_player s, CouldNotFetch, [])
  | Some (Completed s) =>
      let player := imp_player s in
      let player := set_is_playlist true player in
      let player := ensure_panel_forced env player in
      let player := touch_panel env player in
      let report := AddedTracks (added s) (playlist_name player) in
      match voice with
      | None => Some (player, report, [])
      | Some vc =>
          let player := set_voice_client (Some vc) player in
          if negb (Voice.is_playing vc) && negb (Voice.is_paused vc)
          then
            match _play_next fuel w n player with
            | Some (player, log) => Some (player, report, log)
            | None => None
            end
          else Some (player, report, [])
      end
  end.

End Playlist.

(** ** The event loop: coroutines that wait

    [_play_next] and [_after_play] are coroutines: at an [await] the event
    loop may run another one.  A [Task] is such a coroutine waiting at an
    [await]; [step] runs the event loop for one event, from the resumption
    of a coroutine to its next wait.  The waits kept are the resolution of
    a pending track and the two [asyncio.sleep]; the sends of messages and
    the panel edits are run without a wait, so every run of this machine
    is a run of the cog. *)

Module Loop.

Import Resolver Scheduler.

Inductive Task :=
| AfterPlayScheduled
    (* [run_coroutine_threadsafe(self._after_play(...))], not yet run *)
| AfterPlaySleeping
    (* [_after_play] at [await asyncio.sleep(0.4)] *)
| Resolving (next_track : Track)
    (* [_play_next] at [await self._resolve_lazy_track(...)] *)
| SkipSleeping.
    (* [_play_next] at [await asyncio.sleep(0.2)] *)

Record Sys := mkSys {
  player : Player;
  waiting : list Task;
  sent : list Msg
}.

Inductive Event :=
| Enqueue (track : Track)
    (* the end of [add_and_play] for a track it has resolved *)
| StartIfIdle
    (* the end of [spotify_playlist], its tracks being queued *)
| SkipCmd
| StopCmd
| TrackEnds
| Wake (i : nat).

(** The advance operations in flight. *)
Definition in_flight (s : Sys) : nat := List.length (waiting s).

Definition with_player (p : Player) (s : Sys) : Sys :=
  mkSys p (waiting s) (sent s).

Definition spawn (t : Task) (s : Sys) : Sys :=
  mkSys (player s) (waiting s ++ [t]) (sent s).

Definition send (log : list Msg) (s : Sys) : Sys :=
  mkSys (player s) (waiting s) (sent s ++ log).

(** [_play_next] from [player["now"] = next_track] on.  The coroutine
    holds the voice client it read before it waited; a client that has
    gone since raises as one that is playing does. *)
Definition start (env : Env) (next_track : Track) (s : Sys) : Sys :=
  let p := set_now (Some next_track) (player s) in
  let started :=
    match voice_client p with
    | Some vc => start_playback env vc p (stream_url next_track)
    | None => None
    end in
  match started with
  | Some p => with_player p s
  | None =>
      spawn AfterPlaySleeping
        (send (error_notice env)
           (with_player (after_play_reinsert p) s))
  end.

(** [_play_next] from its first line to its first wait. *)
Definition enter (env : Env) (s : Sys) : Sys :=
  let p := player s in
  match voice_client p with
  | None => s
  | Some _ =>
      match queue p with
      | [] => with_player (set_now None p) s
      | next_track :: rest =>
          let s := with_player (set_queue rest p) s in
          if pending next_track
          then spawn (Resolving next_track) s
          else start env next_track s
      end
  end.

(** The coroutine [t] runs again. *)
Definition resume (env : Env) (t : Task) (s : Sys) : Sys :=
  match t with
  | AfterPlayScheduled =>
      spawn AfterPlaySleeping
        (with_player (after_play_reinsert (player s)) s)
  | AfterPlaySleeping => enter env s
  | Resolving next_track =>
      match _resolve_lazy_track env next_track with
      | None => spawn SkipSleeping (send (skip_notice env next_track) s)
      | Some next_track => start env next_track s
      end
  | SkipSleeping => enter env s
  end.

Fixpoint remove_nth {A : Type} (i : nat) (l : list A) : list A :=
  match i, l with
  | _, [] => []
  | O, _ :: l => l
  | S i, x :: l => x :: remove_nth i l
  end.

(** A command, then the callback of the voice client when it fires. *)
Definition command (o : Outcome) (s : Sys) : Sys :=
  let s := with_player (out_player o) s in
  if out_after o then spawn AfterPlayScheduled s else s.

(** [ensure_voice] for a user who is in a voice channel: the voice client
    of the guild, connected now when there was none. *)
Definition ensure_voice (p : Player) : VoiceClient * Player :=
  match voice_client p with
  | Some vc => (vc, p)
  | None => (VcIdle, set_voice_client (Some VcIdle) p)
  end.

(** [if not vc.is_playing() and not vc.is_paused(): await
    self._play_next(guild_id)]. *)
Definition start_if_idle (env : Env) (vc : VoiceClient) (s : Sys) : Sys :=
  if negb (Voice.is_playing vc) && negb (Voice.is_paused vc)
  then enter env s else s.

Definition step (env : Env) (e : Event) (s : Sys) : Sys :=
  match e with
  | Enqueue track =>
      let (vc, p) := ensure_voice (player s) in
      let s := with_player (set_queue (queue p ++ [track]) p) s in
      start_if_idle env vc s
  | StartIfIdle =>
      let (vc, p) := ensure_voice (player s) in
      start_if_idle env vc (with_player p s)
  | SkipCmd => command (Cog.skip env (player s)) s
  | StopCmd => command (Cog.stop env (player s)) s
  | TrackEnds =>
      let (p, fired) := Session.track_ends (player s) in
      let s := with_player p s in
      if fired then spawn AfterPlayScheduled s else s
  | Wake i =>
      match nth_error (waiting s) i with
      | Some t =>
          resume env t (mkSys (player s) (remove_nth i (waiting s)) (sent s))
      | None => s
      end
  end.

(** A run: the events with the environment each one meets. *)
Fixpoint run (trace : list (Event * Env)) (s : Sys) : Sys :=
  match trace with
  | [] => s
  | (e, env) :: trace => run trace (step env e s)
  end.

End Loop.

Module LoopAlone.
Import Loop.

(** The event loop left alone with the coroutines that wait: the first
    of them runs again, until none is left.  A coroutine that comes back
    from a sleep starts the next run of [_play_next]. *)
Fixpoint alone (fuel : nat) (w : World) (n : nat) (s : Sys) : option Sys :=
  match waiting s with
  | [] => Some s
  | t :: _ =>
      match fuel with
      | O => None
      | S fuel =>
          let n := match t with Resolving _ => n | _ => S n end in
          alone fuel w n (step (w n) (Wake 0) s)
      end
  end.

End LoopAlone.

(** ** Sample sessions and environments *)

Module Samples.
Open Scope string_scope.

(** A track that [add_and_play] queued, with its stream. *)
Definition ready (name : string) : Track :=
  {| title := Some name; webpage_url := None;
     stream_url := Some ("https://cdn.example/" ++ name);
     duration := None; thumbnail := None; query := None |}.

(** A track of a playlist import: a search query and no stream yet. *)
Definition lazy (name : string) : Track :=
  {| title := Some name; webpage_url := None; stream_url := None;
     duration := None; thumbnail := None; query := Some name |}.

Definition lazyA : Track := lazy "Song A".
Definition lazyB : Track := lazy "Song B".
Definition trackA : Track := ready "A".
Definition trackB : Track := ready "B".

(** Nothing can be looked up; every stream can be played; the guild has
    the text channel 7. *)
Definition offline : Env :=
  {| video_search := fun _ => None;
     extract_info := fun _ => None;
     extract_info_web := fun _ => None;
     notice_channel := Some 7%Z;
     can_play := fun _ => true;
     time_now := 100%float;
     panel_edit := EditDone;
     panel_send := None |}.

(** The same, in a guild where the bot may write nowhere. *)
Definition muted : Env :=
  {| video_search := fun _ => None;
     extract_info := fun _ => None;
     extract_info_web := fun _ => None;
     notice_channel := None;
     can_play := fun _ => true;
     time_now := 100%float;
     panel_edit := EditDone;
     panel_send := None |}.

Definition always (env : Env) : World := fun _ => env.

(** A session that plays A with B queued behind it. *)
Definition playing_A (mode : Repeat) : Player :=
  {| voice_client :=
       Some (VcPlaying {| src_url := stream_url trackA; src_volume := 0.15 |});
     queue := [trackB]; now := Some trackA; volume := 0.15;
     repeat := mode; is_playlist := false;
     panel_msg_id := None; panel_channel_id := None;
     panel_updater := Some TaskRunning; panel_last_active := None;
     start_time := Some 90%float; playlist_name := None |}.

(** A connected, idle session with the given queue. *)
Definition idle_with (q : list Track) : Player :=
  set_queue q (set_voice_client (Some VcIdle) new_player).

(** An extraction backend that finds one stream for whatever is asked. *)
Definition found : Info :=
  {| i_media :=
       {| m_url := Some "https://cdn.example/stream";
          m_formats := None;
          m_title := Some "Song A (Official Audio)";
          m_webpage_url := Some "https://video.example/watch/a";
          m_thumbnail := None;
          m_thumbnails := Some [Some "small.jpg"; Some "large.jpg"] |};
     i_entries := None |}.

Definition online : Env :=
  {| video_search := fun _ => None;
     extract_info := fun _ => Some found;
     extract_info_web := fun _ => None;
     notice_channel := Some 7%Z;
     can_play := fun _ => true;
     time_now := 100%float;
     panel_edit := EditDone;
     panel_send := None |}.

End Samples.

(** ** Auxiliary definitions of the statements *)

Module Expect.
Import Scheduler.

(** The notices of a queue whose tracks all fail to resolve, the first
    failure met at run [n]: one notice for each track that fails while
    there is a channel to write to. *)
Fixpoint drain_notices (w : World) (n : nat) (q : list Track) : list Msg :=
  match q with
  | [] => []
  | t :: q => skip_notice (w n) t ++ drain_notices w (S n) q
  end.

(** The queue after the repeat decision of [_after_play]. *)
Definition reinserted (p : Player) : list Track :=
  match now p with
  | Some track =>
      match repeat p with
      | RepeatSingle => track :: queue p
      | RepeatAll => queue p ++ [track]
      | RepeatOff => queue p
      end
  | None => queue p
  end.

End Expect.

Module PlaylistSpec.
Import Playlist.

(** The tracks a page adds to the queue when the limit does not cut it. *)
Definition page_tracks (items : list Item) : list Track :=
  flat_map (fun it => match it with
                      | Some track_obj => [track_of track_obj]
                      | None => []
                      end) items.

(** [pages_fetched api total s pages s']: from [s], the loop fetches the
    pages [pages] one after the other, goes on after each of them and is
    then in [s']. *)
Inductive pages_fetched (api : Api) (total : option Z)
  : Import -> list (list Item) -> Import -> Prop :=
| fetched_none s : pages_fetched api total s [] s
| fetched_page s items s' pages s'' :
    playlist_items api (page_size s) (offset s) = Some items ->
    turn api total s = Continue s' ->
    pages_fetched api total s' pages s'' ->
    pages_fetched api total s (items :: pages) s''.

Definition sample_item : Item :=
  Some {| sp_name := Some "Song"%string;
          sp_artists := [Some "Artist"%string];
          sp_url := None;
          sp_duration_ms := Some 215000%Z |}.

Definition full_page : list Item := List.repeat sample_item 100.

(** A playlist of 250 tracks whose second page cannot be fetched. *)
Definition flaky : Api :=
  {| playlist_meta := Some (Some 250%Z, Some "Mix"%string);
     playlist_items := fun limit offset =>
       if (offset =? 0)%Z then Some full_page else None |}.

End PlaylistSpec.

Module VolumeSpec.








End VolumeSpec.

Module SelectSpec.

(** A bitrate as the score reads it: one that is missing counts as 0. *)
Definition bitrate (v : option Q) : Q :=
  match v with
  | Some q => q
  | None => 0
  end.

(** [lower c d]: the score of [c] is strictly below that of [d], the
    audio bitrates deciding and, when they are equal, the total
    bitrates. *)
Definition lower (c d : Format) : Prop :=
  bitrate (f_abr c) < bitrate (f_abr d) \/
  (bitrate (f_abr c) == bitrate (f_abr d) /\
   bitrate (f_tbr c) < bitrate (f_tbr d)).

End SelectSpec.

Module LoopSamples.
Import Loop.

(** A connected, idle session with two playlist tracks queued and no
    coroutine waiting. *)
Definition two_lazy : Sys :=
  {| player := Samples.idle_with [Samples.lazyA; Samples.lazyB];
     waiting := []; sent := [] |}.

(** The playlist import ends and starts the advance; while that advance
    waits for the resolution of its track, [add_and_play] queues a track
    of its own and finds the voice client idle. *)
Definition overlap : list (Event * Env) :=
  [(StartIfIdle, Samples.online); (Enqueue Samples.trackA, Samples.online)].

(** Both resolutions then come back, one after the other. *)
Definition both_resolve : list (Event * Env) :=
  [(Wake 0, Samples.online); (Wake 0, Samples.online)].

(** The [_after_play] of the start that failed sleeps, advances, fails
    again and sleeps, and advances once more. *)
Definition sleeps_end : list (Event * Env) :=
  [(Wake 0, Samples.online); (Wake 0, Samples.online)].

(** A session that plays A with B queued, no coroutine waiting. *)
Definition playing : Sys :=
  {| player := Samples.playing_A RepeatOff; waiting := []; sent := [] |}.

(** Skip, invoked twice before the event loop runs the callback. *)
Definition skip_twice : list (Event * Env) :=
  [(SkipCmd, Samples.online); (SkipCmd, Samples.online)].

End LoopSamples.

Module LoopSpec.
Import Loop.

(** The events that reach [_play_next] only through the callback of the
    voice client: the commands, the end of a track, and the coroutines
    that run again. *)
Definition quiet (e : Event) : bool :=
  match e with
  | Enqueue _ | StartIfIdle => false
  | SkipCmd | StopCmd | TrackEnds | Wake _ => true
  end.

(** At most one coroutine waits, and none while the voice client plays
    or is paused. *)
Definition settled (s : Sys) : Prop :=
  (in_flight s <= 1)%nat /\
  (state (player s) <> Idle -> waiting s = []).

(** While the voice client plays or is paused, the now-playing slot is
    filled. *)
Definition shown (s : Sys) : Prop :=
  state (player s) <> Idle -> now (player s) <> None.

(** [settled] and, when [b] is set, [shown]. *)
Definition kept (b : bool) (s : Sys) : Prop :=
  settled s /\ (b = true -> shown s).

End LoopSpec.

Module SelectSamples.
Open Scope string_scope.

Definition fmt_of (url : string) (acodec : string) (abr tbr : option Q)
  : Format :=
  {| f_url := Some url; f_src := None; f_acodec := Some acodec;
     f_abr := abr; f_tbr := tbr |}.

(** Three audio encodings, the last two with the same score, and an
    entry with no URL. *)
Definition opus_low : Format := fmt_of "low.webm" "opus" (Some 64) (Some 64).
Definition opus_high : Format := fmt_of "high.webm" "opus" (Some 160) (Some 160).
Definition aac_high : Format := fmt_of "high.m4a" "mp4a" (Some 160) (Some 160).
Definition no_link : Format :=
  {| f_url := None; f_src := None; f_acodec := Some "opus";
     f_abr := Some 320; f_tbr := Some 320 |}.

Definition media_of (formats : list Format) : Media :=
  {| m_url := None; m_formats := Some formats; m_title := Some "Song";
     m_webpage_url := None; m_thumbnail := None; m_thumbnails := None |}.

Definition audio_only : Media :=
  media_of [opus_low; no_link; opus_high; aac_high].

(** A stream with sound whose audio bitrate is not given, and a
    video-only stream of a greater total bitrate. *)
Definition muxed : Format := fmt_of "muxed.mp4" "mp4a" None (Some 600).
Definition video_only : Format := fmt_of "video.mp4" "none" None (Some 2500).

Definition with_video : Media := media_of [muxed; video_only].

(** Encodings whose audio and total bitrates do not rank alike: speech
    at a low audio bitrate in a large file, the same music three times,
    and a video-only stream. *)
Definition talk : Format := fmt_of "talk.webm" "opus" (Some 48) (Some 900).
Definition music : Format := fmt_of "music.webm" "opus" (Some 160) (Some 170).
Definition music_aac : Format := fmt_of "music.m4a" "mp4a" (Some 160) (Some 170).
Definition music_small : Format := fmt_of "small.m4a" "mp4a" (Some 160) None.
Definition clip : Format := fmt_of "clip.mp4" "none" None (Some 2500).

Definition by_audio : Media :=
  media_of [talk; music_small; music; no_link; music_aac; clip].

End SelectSamples.

Module ResolverSpec.
Import Select Resolver.

(** What [has_playable] and [_resolve_lazy_track] look at in [info]. *)
Definition picked (info : Info) : option Media :=
  match i_entries info with
  | Some [] => None
  | Some (e :: _) => Some e
  | None => Some (i_media info)
  end.

(** The stream taken from a description: [_select_best_audio_url(info) or
    info.get("url")]. *)
Definition stream_of (m : Media) : option string :=
  Py.or (_select_best_audio_url m) (m_url m).

End ResolverSpec.

Module AdvanceSpec.
Import Resolver Scheduler.

(** An environment in which no stream can be played. *)
Definition jammed : Env :=
  {| video_search := fun _ => None;
     extract_info := fun _ => None;
     extract_info_web := fun _ => None;
     notice_channel := Some 7%Z;
     can_play := fun _ => false;
     time_now := 100%float;
     panel_edit := EditDone;
     panel_send := None |}.

(** The notices of tracks that all fail to start, the first at run [n]. *)
Fixpoint error_notices (w : World) (n : nat) (k : nat) : list Msg :=
  match k with
  | O => []
  | S k => error_notice (w n) ++ error_notices w (S n) k
  end.

(** The attempt of [_play_next] on the track it has popped: the track
    itself when it is ready, what its resolution gives when it is
    pending. *)
Definition attempt (env : Env) (t : Track) : option Track :=
  if pending t then _resolve_lazy_track env t else Some t.

End AdvanceSpec.

Module RepeatSpec.
Import Scheduler.

(** [k] tracks come to their natural end one after the other, the first
    at run [n]; each time the event loop runs the callback and its
    advance to the end. *)
Fixpoint play_through (k : nat) (fuel : nat) (w : World) (n : nat)
    (p : Player) : option Player :=
  match k with
  | O => Some p
  | S k =>
      match Session.natural_end fuel w n p with
      | Some (p', _) => play_through k fuel w (S n) p'
      | None => None
      end
  end.

(** The first element goes to the end. *)
Definition rotate (l : list Track) : list Track :=
  match l with
  | [] => []
  | t :: l => l ++ [t]
  end.

End RepeatSpec.

Module ImportSpec.
Import Playlist.
Open Scope Z_scope.

(** What the paging loop keeps true of its variables: [tracks] are the
    tracks appended so far to the queue [q0], all of them still to be
    resolved, and [added] and [fetched] count them. *)
Definition counted (q0 : list Track) (s : Import) : Prop :=
  exists tracks,
    queue (imp_player s) = q0 ++ tracks /\
    Z.of_nat (List.length tracks) = added s /\
    added s = fetched s /\
    Forall (fun t => stream_url t = None) tracks.

(** The state of the loop when it ended. *)
Definition last (r : Fetch) : Import :=
  match r with
  | Completed s => s
  | Failed s => s
  end.

(** A playlist of 500 tracks, served in full pages. *)
Definition long_list : Api :=
  {| playlist_meta := Some (Some 500, Some "Long"%string);
     playlist_items := fun limit offset =>
       Some (List.repeat PlaylistSpec.sample_item (Z.to_nat limit)) |}.

End ImportSpec.

(** * Properties *)

(** ** Stream selection *)

Module SelectFacts.
Import Select SelectSpec.

Lemma Py_truthy_or (a b : option string) :
  Py.truthy (Py.or a b) = Py.truthy a || Py.truthy b.
Proof. unfold Py.or. destruct (Py.truthy a) eqn:E; simpl; auto. Qed.

Lemma tuple_lt_spec (a b : Q * Q) : tuple_lt a b = true <-> lex_lt a b.
Proof.
  unfold tuple_lt, lex_lt.
  destruct (Qeq_bool (fst a) (fst b)) eqn:E.
  - apply Qeq_bool_iff in E. rewrite negb_true_iff.
    destruct (Qle_bool (snd b) (snd a)) eqn:L.
    + apply Qle_bool_iff in L. split; [discriminate|]. intros [H|[_ H]]; lra.
    + split; [|reflexivity]. intros _. right. split; [exact E|].
      apply Qnot_le_lt. intro H. apply Qle_bool_iff in H. congruence.
  - apply Qeq_bool_neq in E. rewrite negb_true_iff.
    destruct (Qle_bool (fst b) (fst a)) eqn:L.
    + apply Qle_bool_iff in L. split; [discriminate|]. intros [H|[H _]]; [lra|contradiction].
    + split; [|reflexivity]. intros _. left.
      apply Qnot_le_lt. intro H. apply Qle_bool_iff in H. congruence.
Qed.

Lemma lex_lt_irrefl a : ~ lex_lt a a.
Proof. unfold lex_lt. intros [H|[_ H]]; lra. Qed.

Lemma lex_lt_trans a b c : lex_lt a b -> lex_lt b c -> lex_lt a c.
Proof. unfold lex_lt. intros [H|[H1 H2]] [K|[K1 K2]]; [left|left|left|right;split]; lra. Qed.

Lemma lex_nlt_trans a b c : ~ lex_lt a b -> ~ lex_lt b c -> ~ lex_lt a c.
Proof.
  unfold lex_lt. intros H K [L|[L1 L2]].
  - destruct (Qlt_le_dec (fst a) (fst b)) as [X|X]; [apply H; left; exact X|].
    destruct (Qlt_le_dec (fst b) (fst c)) as [Y|Y]; [apply K; left; exact Y|]. lra.
  - destruct (Qlt_le_dec (fst a) (fst b)) as [X|X]; [apply H; left; exact X|].
    destruct (Qlt_le_dec (fst b) (fst c)) as [Y|Y]; [apply K; left; exact Y|].
    assert (E1 : fst a == fst b) by lra. assert (E2 : fst b == fst c) by lra.
    destruct (Qlt_le_dec (snd a) (snd b)) as [Z|Z]; [apply H; right; split; assumption|].
    destruct (Qlt_le_dec (snd b) (snd c)) as [W|W]; [apply K; right; split; assumption|]. lra.
Qed.

Lemma collect_acc (l : list Format) (acc : list Format) :
  fold_left collect l acc = acc ++ filter has_url l.
Proof.
  revert acc. induction l as [|f l IH]; intros acc; simpl.
  - now rewrite app_nil_r.
  - rewrite IH. unfold collect, has_url. rewrite Py_truthy_or.
    destruct (Py.truthy (f_url f) || Py.truthy (f_src f)); simpl.
    + destruct (Py.truthy (f_acodec f) && Py.neq_str (f_acodec f) "none");
        now rewrite <- app_assoc.
    + reflexivity.
Qed.

Lemma candidates_filter (info : Media) :
  candidates info = filter has_url (Py.list_or_empty (m_formats info)).
Proof. unfold candidates. now rewrite collect_acc. Qed.

Lemma insert_desc_perm x l : Permutation (x :: l) (insert_desc x l).
Proof.
  induction l as [|y l IH]; simpl; [reflexivity|].
  destruct (tuple_lt (score x) (score y)); [|reflexivity].
  rewrite perm_swap. now constructor.
Qed.

Lemma sorted_desc_perm l : Permutation l (sorted_desc l).
Proof.
  induction l as [|x l IH]; simpl; [constructor|].
  rewrite <- insert_desc_perm. now constructor.
Qed.

Lemma sorted_desc_nil l : sorted_desc l = [] -> l = [].
Proof.
  intros H. apply Permutation_nil. rewrite <- H. symmetry. apply sorted_desc_perm.
Qed.

(** The head of the sorted list is the first element of greatest score. *)
Lemma sorted_desc_head (l : list Format) (b : Format) (s : list Format) :
  sorted_desc l = b :: s ->
  exists pre post,
    l = pre ++ b :: post /\
    (forall c, In c pre -> lex_lt (score c) (score b)) /\
    (forall c, In c post -> ~ lex_lt (score b) (score c)).
Proof.
  revert b s. induction l as [|x l IH]; intros b s H; [discriminate|].
  simpl in H. destruct (sorted_desc l) as [|y s'] eqn:E.
  - apply sorted_desc_nil in E. subst l. simpl in H. injection H as <- <-.
    exists [], []. repeat split; intros c [].
  - simpl in H. destruct (IH y s' eq_refl) as (pre & post & Hl & Hpre & Hpost).
    destruct (tuple_lt (score x) (score y)) eqn:T.
    + injection H as <- <-. exists (x :: pre), post. subst l. repeat split.
      * intros c [<-|Hc]; [now apply tuple_lt_spec|now apply Hpre].
      * exact Hpost.
    + injection H as <- <-. exists [], l. repeat split; [intros c []|].
      assert (N : ~ lex_lt (score x) (score y)).
      { intros K. apply tuple_lt_spec in K. congruence. }
      intros c Hc. subst l. apply in_app_or in Hc.
      destruct Hc as [Hc|[<-|Hc]].
      * intros K. apply N. eapply lex_lt_trans; [exact K|now apply Hpre].
      * exact N.
      * eapply lex_nlt_trans; [exact N|now apply Hpost].
Qed.

Lemma insert_desc_sorted x l :
  StronglySorted (fun a b => ~ lex_lt (score a) (score b)) l ->
  StronglySorted (fun a b => ~ lex_lt (score a) (score b)) (insert_desc x l).
Proof.
  induction 1 as [|y l Hs IH Hy]; simpl.
  - constructor; constructor.
  - destruct (tuple_lt (score x) (score y)) eqn:T.
    + constructor; [exact IH|].
      eapply Permutation_Forall; [apply insert_desc_perm|].
      constructor; [|exact Hy].
      apply tuple_lt_spec in T. intros K.
      exact (lex_lt_irrefl _ (lex_lt_trans _ _ _ T K)).
    + assert (N : ~ lex_lt (score x) (score y)).
      { intros K. apply tuple_lt_spec in K. congruence. }
      constructor; [now constructor|].
      constructor; [exact N|].
      rewrite Forall_forall in *. intros c Hc.
      eapply lex_nlt_trans; [exact N|now apply Hy].
Qed.

(** [sorted_desc] sorts: a permutation of its argument, in descending
    order of score. *)
Lemma sorted_desc_sorted l :
  StronglySorted (fun a b => ~ lex_lt (score a) (score b)) (sorted_desc l).
Proof.
  induction l as [|x l IH]; simpl; [constructor|now apply insert_desc_sorted].
Qed.

Lemma select_of_candidates (info : Media) :
  candidates info <> [] ->
  _select_best_audio_url info =
    match sorted_desc (candidates info) with
    | best :: _ => Py.or (f_url best) (f_src best)
    | [] => None
    end.
Proof.
  intros H. unfold _select_best_audio_url.
  assert (F : Py.is_empty (Py.list_or_empty (m_formats info)) = false).
  { destruct (Py.list_or_empty (m_formats info)) eqn:E; [|reflexivity].
    exfalso. apply H. rewrite candidates_filter, E. reflexivity. }
  rewrite F, andb_false_r.
  destruct (candidates info); [congruence|reflexivity].
Qed.

Lemma num_or_zero_bitrate (v : option Q) : Py.num_or_zero v == bitrate v.
Proof.
  destruct v as [q|]; simpl; [|reflexivity].
  destruct (Qeq_bool q 0) eqn:E; [|reflexivity].
  apply Qeq_bool_iff in E. now symmetry.
Qed.

(** The order of the keys that [sorted] compares is the order of the
    bitrates, the audio bitrate first. *)
Lemma lex_lt_score (c d : Format) : lex_lt (score c) (score d) <-> lower c d.
Proof.
  unfold lex_lt, score, lower. simpl.
  now rewrite !num_or_zero_bitrate.
Qed.

(** C6.  When the list of candidate encodings is not empty, the stream
    selected is the URL of the first candidate, in list order, that is
    greatest by audio bitrate and then by total bitrate, a missing bitrate
    counting as 0: every candidate before it has a smaller audio bitrate,
    or the same audio bitrate and a smaller total bitrate, and no
    candidate after it is greater than it in that order.  When the list
    is empty and there is no top-level URL, nothing is selected. *)
Theorem select_best_is_first_maximal (info : Media) :
  (candidates info <> [] ->
   exists pre best post,
     candidates info = pre ++ best :: post /\
     (forall c, In c pre ->
        bitrate (f_abr c) < bitrate (f_abr best) \/
        (bitrate (f_abr c) == bitrate (f_abr best) /\
         bitrate (f_tbr c) < bitrate (f_tbr best))) /\
     (forall c, In c post ->
        ~ (bitrate (f_abr best) < bitrate (f_abr c) \/
           (bitrate (f_abr best) == bitrate (f_abr c) /\
            bitrate (f_tbr best) < bitrate (f_tbr c)))) /\
     _select_best_audio_url info = Py.or (f_url best) (f_src best) /\
     Py.truthy (_select_best_audio_url info) = true) /\
  (candidates info = [] -> Py.truthy (m_url info) = false ->
   _select_best_audio_url info = None).
Proof.
  split.
  - intros H. rewrite (select_of_candidates info H).
    destruct (sorted_desc (candidates info)) as [|best s] eqn:E.
    { apply sorted_desc_nil in E. contradiction. }
    destruct (sorted_desc_head _ _ _ E) as (pre & post & Hl & Hpre & Hpost).
    exists pre, best, post.
    split; [exact Hl|]. split; [|split; [|split; [reflexivity|]]].
    + intros c Hc. apply (lex_lt_score c best). now apply Hpre.
    + intros c Hc K. apply (lex_lt_score best c) in K. exact (Hpost c Hc K).
    + assert (Hin : In best (candidates info)).
      { rewrite Hl. apply in_or_app. right. now left. }
      rewrite candidates_filter in Hin. apply filter_In in Hin.
      rewrite Py_truthy_or. exact (proj2 Hin).
  - intros H U. unfold _select_best_audio_url. rewrite U, H. reflexivity.
Qed.

Lemma select_best_is_first_maximal_witness :
  exists pre best post,
    candidates SelectSamples.by_audio = pre ++ best :: post /\
    (forall c, In c pre ->
       bitrate (f_abr c) < bitrate (f_abr best) \/
       (bitrate (f_abr c) == bitrate (f_abr best) /\
        bitrate (f_tbr c) < bitrate (f_tbr best))) /\
    (forall c, In c post ->
       ~ (bitrate (f_abr best) < bitrate (f_abr c) \/
          (bitrate (f_abr best) == bitrate (f_abr c) /\
           bitrate (f_tbr best) < bitrate (f_tbr c)))) /\
    _select_best_audio_url SelectSamples.by_audio
    = Py.or (f_url best) (f_src best) /\
    Py.truthy (_select_best_audio_url SelectSamples.by_audio) = true.
Proof.
  apply (proj1 (select_best_is_first_maximal SelectSamples.by_audio)).
  vm_compute. discriminate.
Defined.

(** The audio bitrate decides before the total bitrate, and a missing
    bitrate is the least: of the three encodings of the greatest audio
    bitrate, the one with no total bitrate is passed over and the first
    of the other two is taken, though the speech and the video-only
    stream have greater total bitrates. *)
Lemma select_prefers_audio_bitrate :
  candidates SelectSamples.by_audio
  = [SelectSamples.talk; SelectSamples.music_small; SelectSamples.music;
     SelectSamples.music_aac; SelectSamples.clip] /\
  _select_best_audio_url SelectSamples.by_audio = f_url SelectSamples.music.
Proof. split; vm_compute; reflexivity. Qed.

(** The sample: of two encodings of the same greatest score, the first in
    the list is taken. *)
Lemma select_best_sample :
  candidates SelectSamples.audio_only
  = [SelectSamples.opus_low; SelectSamples.opus_high; SelectSamples.aac_high] /\
  _select_best_audio_url SelectSamples.audio_only
  = f_url SelectSamples.opus_high.
Proof. split; vm_compute; reflexivity. Qed.

(** C10.  An entry of [formats] that has a URL is appended to the
    candidates whatever its audio codec: both branches of the codec test
    append it, so the candidates are the entries with a URL, those with
    the codec "none" among them; and the URL selected can be that of a
    video-only stream although a stream with sound is offered. *)
Theorem codec_test_excludes_nothing :
  (forall cands f,
     has_url f = true -> collect cands f = cands ++ [f]) /\
  (forall info,
     candidates info = filter has_url (Py.list_or_empty (m_formats info))) /\
  (forall info f,
     In f (Py.list_or_empty (m_formats info)) ->
     has_url f = true -> f_acodec f = Some "none"%string ->
     In f (candidates info)) /\
  (f_acodec SelectSamples.video_only = Some "none"%string /\
   candidates SelectSamples.with_video
   = [SelectSamples.muxed; SelectSamples.video_only] /\
   _select_best_audio_url SelectSamples.with_video
   = f_url SelectSamples.video_only).
Proof.
  split; [|split; [|split]].
  - intros cands f H. unfold collect. unfold has_url in H.
    rewrite Py_truthy_or, H. simpl.
    now destruct (Py.truthy (f_acodec f) && Py.neq_str (f_acodec f) "none").
  - exact candidates_filter.
  - intros info f Hin Hu _. rewrite candidates_filter. apply filter_In. now split.
  - repeat split; vm_compute; reflexivity.
Qed.

Lemma codec_test_excludes_nothing_witness :
  collect [SelectSamples.muxed] SelectSamples.video_only
  = [SelectSamples.muxed; SelectSamples.video_only] /\
  In SelectSamples.video_only (candidates SelectSamples.with_video).
Proof.
  destruct codec_test_excludes_nothing as (Appended & _ & Kept & _).
  split.
  - apply (Appended [SelectSamples.muxed] SelectSamples.video_only).
    reflexivity.
  - apply (Kept SelectSamples.with_video SelectSamples.video_only).
    + right. left. reflexivity.
    + reflexivity.
    + reflexivity.
Defined.

End SelectFacts.

(** ** The scheduler *)

Module SchedulerFacts.
Import Resolver Scheduler Expect.

(** Reading a field after the assignments of the scheduler. *)
Lemma after_play_reinsert_now p : now (after_play_reinsert p) = None.
Proof.
  unfold after_play_reinsert, cancel_updater.
  destruct (now p); destruct (repeat p); simpl;
    match goal with |- context [match ?u with _ => _ end] => destruct u as [[]|] end;
    reflexivity.
Qed.

Lemma cancel_updater_queue p : queue (cancel_updater p) = queue p.
Proof. unfold cancel_updater. destruct (panel_updater p) as [[]|]; reflexivity. Qed.

Lemma cancel_updater_voice p : voice_client (cancel_updater p) = voice_client p.
Proof. unfold cancel_updater. destruct (panel_updater p) as [[]|]; reflexivity. Qed.

Lemma cancel_updater_now p : now (cancel_updater p) = now p.
Proof. unfold cancel_updater. destruct (panel_updater p) as [[]|]; reflexivity. Qed.

Lemma cancel_updater_repeat p : repeat (cancel_updater p) = repeat p.
Proof. unfold cancel_updater. destruct (panel_updater p) as [[]|]; reflexivity. Qed.

Lemma cancel_updater_volume p : volume (cancel_updater p) = volume p.
Proof. unfold cancel_updater. destruct (panel_updater p) as [[]|]; reflexivity. Qed.

Lemma after_play_reinsert_queue p :
  queue (after_play_reinsert p) = reinserted p.
Proof.
  unfold after_play_reinsert, reinserted. rewrite cancel_updater_queue.
  destruct (now p); destruct (repeat p); reflexivity.
Qed.

Lemma after_play_reinsert_voice p :
  voice_client (after_play_reinsert p) = voice_client p.
Proof.
  unfold after_play_reinsert. rewrite cancel_updater_voice.
  destruct (now p); destruct (repeat p); reflexivity.
Qed.

Lemma after_play_reinsert_repeat p :
  repeat (after_play_reinsert p) = repeat p.
Proof.
  unfold after_play_reinsert. rewrite cancel_updater_repeat.
  destruct (now p); destruct (repeat p) eqn:E; simpl; congruence.
Qed.

Lemma after_play_reinsert_volume p :
  volume (after_play_reinsert p) = volume p.
Proof.
  unfold after_play_reinsert. rewrite cancel_updater_volume.
  destruct (now p); destruct (repeat p); reflexivity.
Qed.

(** C3.  When the playing track comes to its end by itself, the callback
    fires and [_after_play], before it advances, empties the now-playing
    slot and puts the very track that ended at the front of the queue
    under SINGLE, at its back under ALL, and nowhere under OFF; so with
    ALL, a queue [B] behind the playing A becomes [B; A]. *)
Theorem natural_end_reinsertion (p : Player) (track : Track) :
  state p = Playing ->
  now p = Some track ->
  let (p1, fired) := Session.track_ends p in
  let p2 := after_play_reinsert p1 in
  fired = true /\
  now p2 = None /\
  queue p2 = match repeat p with
             | RepeatSingle => track :: queue p
             | RepeatAll => queue p ++ [track]
             | RepeatOff => queue p
             end /\
  (forall B, repeat p = RepeatAll -> queue p = [B] -> queue p2 = [B; track]).
Proof.
  intros Hs Hn. unfold Session.track_ends, state in *.
  destruct (voice_client p) as [[| s | s]|] eqn:V; try discriminate.
  simpl. split; [reflexivity|]. split; [apply after_play_reinsert_now|].
  rewrite after_play_reinsert_queue. unfold reinserted. simpl. rewrite Hn.
  split; [reflexivity|]. intros B HR HQ. now rewrite HR, HQ.
Qed.

Lemma natural_end_reinsertion_witness :
  let (p1, fired) := Session.track_ends (Samples.playing_A RepeatAll) in
  let p2 := after_play_reinsert p1 in
  fired = true /\
  now p2 = None /\
  queue p2 = [Samples.trackB; Samples.trackA] /\
  (forall B, RepeatAll = RepeatAll -> [Samples.trackB] = [B] ->
             queue p2 = [B; Samples.trackA]).
Proof.
  apply (natural_end_reinsertion (Samples.playing_A RepeatAll) Samples.trackA);
    reflexivity.
Defined.

Lemma refresh_panel_fields env p :
  let p' := refresh_panel env p in
  voice_client p' = voice_client p /\ queue p' = queue p /\ now p' = now p /\
  repeat p' = repeat p /\ volume p' = volume p.
Proof.
  unfold refresh_panel, ensure_panel_forced.
  destruct (panel_msg_id p); [|now repeat split].
  destruct (panel_edit env); try now repeat split.
  destruct (panel_send env) as [[m c]|]; now repeat split.
Qed.

Lemma start_playback_ok env vc p url :
  can_play env url = true ->
  Voice.is_playing vc = false ->
  exists p',
    start_playback env vc p url = Some p' /\
    voice_client p' = Some (VcPlaying {| src_url := url; src_volume := volume p |}) /\
    queue p' = queue p /\ now p' = now p /\ repeat p' = repeat p /\
    volume p' = volume p.
Proof.
  intros C V. unfold start_playback. rewrite C.
  assert (E : Voice.play vc {| src_url := url; src_volume := volume p |}
              = Some (VcPlaying {| src_url := url; src_volume := volume p |})).
  { destruct vc; simpl in *; congruence. }
  rewrite E. eexists. split; [reflexivity|].
  simpl. rewrite cancel_updater_voice, cancel_updater_queue, cancel_updater_now,
    cancel_updater_repeat, cancel_updater_volume. simpl.
  destruct (refresh_panel_fields env
    (set_voice_client (Some (VcPlaying {| src_url := url; src_volume := volume p |}))
       (set_start_time (Some (time_now env)) p))) as (A & B & C' & D & F).
  rewrite A, B, C', D, F. now repeat split.
Qed.

(** An advance that finds a track ready to play at the head of the
    queue. *)
Lemma play_next_starts fuel w n p vc nxt rest :
  voice_client p = Some vc ->
  Voice.is_playing vc = false ->
  queue p = nxt :: rest ->
  pending nxt = false ->
  can_play (w n) (stream_url nxt) = true ->
  exists p',
    _play_next (S fuel) w n p = Some (p', []) /\
    now p' = Some nxt /\ queue p' = rest /\ repeat p' = repeat p /\
    voice_client p' =
      Some (VcPlaying {| src_url := stream_url nxt; src_volume := volume p |}).
Proof.
  intros V I Q P C. simpl. rewrite V, Q, P.
  destruct (start_playback_ok (w n) vc (set_now (Some nxt) (set_queue rest p))
              (stream_url nxt) C I) as (p' & E & A & B & D & F & G).
  rewrite E. exists p'. now repeat split.
Qed.

Lemma play_next_empty fuel w n p vc :
  voice_client p = Some vc -> queue p = [] ->
  _play_next (S fuel) w n p = Some (set_now None p, []).
Proof. intros V Q. simpl. now rewrite V, Q. Qed.

(** An advance whose head waits for its resolution, which succeeds. *)
Lemma play_next_resolves fuel w n p vc nxt nxt' rest :
  voice_client p = Some vc ->
  Voice.is_playing vc = false ->
  queue p = nxt :: rest ->
  pending nxt = true ->
  _resolve_lazy_track (w n) nxt = Some nxt' ->
  can_play (w n) (stream_url nxt') = true ->
  exists p',
    _play_next (S fuel) w n p = Some (p', []) /\
    now p' = Some nxt' /\ queue p' = rest /\ repeat p' = repeat p /\
    voice_client p' =
      Some (VcPlaying {| src_url := stream_url nxt'; src_volume := volume p |}).
Proof.
  intros V I Q P R C. simpl. rewrite V, Q, P, R.
  destruct (start_playback_ok (w n) vc (set_now (Some nxt') (set_queue rest p))
              (stream_url nxt') C I) as (p' & E & A & B & D & F & G).
  rewrite E. exists p'. now repeat split.
Qed.

(** A skip in a playing or paused session stops the voice client, which
    calls back. *)
Lemma skip_fires env p :
  state p <> Idle ->
  Cog.skip env p
  = mkOutcome (touch_panel env (set_voice_client (Some VcIdle) p)) Skipped true.
Proof.
  unfold state, Cog.skip.
  destruct (voice_client p) as [[|s|s]|]; try congruence; reflexivity.
Qed.

Lemma natural_end_fires fuel w n p :
  state p = Playing ->
  Session.natural_end fuel w n p
  = _after_play fuel w n (set_voice_client (Some VcIdle) p).
Proof.
  unfold state, Session.natural_end, Session.track_ends.
  destruct (voice_client p) as [[|s|s]|]; try discriminate; reflexivity.
Qed.

(** C1, as the code has it.  A skip in a playing or paused session stops
    the voice client and does nothing else to the queue or to the track:
    the callback this causes is the [_after_play] that a natural end
    causes, run on the stopped player.  It takes the repeat decision on
    the skipped track (front of the queue under SINGLE, back under ALL,
    nowhere under OFF), empties the now-playing slot and runs the advance
    on the resulting queue; this much holds of every such session.  When
    that queue is empty the session ends idle with nothing playing.  When
    its head has a stream, or waits for a resolution that succeeds, and
    the stream can be started, the head becomes the playing track and
    what follows it stays queued.  So under SINGLE a skipped track that
    can be started again is replayed, the queue staying as it was. *)
Theorem skip_takes_repeat_decision
    (fuel : nat) (w : World) (n : nat) (p : Player) (cur : Track) :
  state p <> Idle ->
  now p = Some cur ->
  let stopped := touch_panel (w n) (set_voice_client (Some VcIdle) p) in
  let decided := after_play_reinsert stopped in
  let resulting := match repeat p with
                   | RepeatSingle => cur :: queue p
                   | RepeatAll => queue p ++ [cur]
                   | RepeatOff => queue p
                   end in
  (Cog.skip (w n) p = mkOutcome stopped Skipped true /\
   state stopped = Idle /\ queue stopped = queue p /\ now stopped = now p /\
   Session.skip fuel w n p = _after_play fuel w n stopped /\
   (state p = Playing ->
    Session.natural_end fuel w n p
    = _after_play fuel w n (set_voice_client (Some VcIdle) p))) /\
  (Session.skip fuel w n p = _play_next fuel w n decided /\
   state decided = Idle /\ voice_client decided = Some VcIdle /\
   now decided = None /\ repeat decided = repeat p /\
   queue decided = resulting) /\
  (resulting = [] ->
     exists p',
       Session.skip (S fuel) w n p = Some (p', []) /\
       now p' = None /\ queue p' = [] /\ state p' = Idle) /\
  (forall nxt rest,
     resulting = nxt :: rest ->
     pending nxt = false ->
     can_play (w n) (stream_url nxt) = true ->
     exists p',
       Session.skip (S fuel) w n p = Some (p', []) /\
       now p' = Some nxt /\ queue p' = rest /\ state p' = Playing) /\
  (forall nxt rest nxt',
     resulting = nxt :: rest ->
     pending nxt = true ->
     _resolve_lazy_track (w n) nxt = Some nxt' ->
     can_play (w n) (stream_url nxt') = true ->
     exists p',
       Session.skip (S fuel) w n p = Some (p', []) /\
       now p' = Some nxt' /\ queue p' = rest /\ state p' = Playing) /\
  (repeat p = RepeatSingle ->
     pending cur = false ->
     can_play (w n) (stream_url cur) = true ->
     exists p',
       Session.skip (S fuel) w n p = Some (p', []) /\
       now p' = Some cur /\ queue p' = queue p /\ state p' = Playing).
Proof.
  intros S N stopped decided resulting.
  assert (K : forall f, Session.skip f w n p = _play_next f w n decided).
  { intros f. unfold Session.skip. rewrite (skip_fires (w n) p S). reflexivity. }
  assert (V : voice_client decided = Some VcIdle).
  { unfold decided. now rewrite after_play_reinsert_voice. }
  assert (Q : queue decided = resulting).
  { unfold decided. rewrite after_play_reinsert_queue. unfold reinserted.
    simpl. now rewrite N. }
  assert (G : forall nxt rest,
     resulting = nxt :: rest ->
     pending nxt = false ->
     can_play (w n) (stream_url nxt) = true ->
     exists p',
       Session.skip (Datatypes.S fuel) w n p = Some (p', []) /\
       now p' = Some nxt /\ queue p' = rest /\ state p' = Playing).
  { intros nxt rest HQ HP HC. rewrite HQ in Q.
    destruct (play_next_starts fuel w n decided VcIdle nxt rest V eq_refl Q HP HC)
      as (p' & E' & A & B & _ & D).
    exists p'. rewrite K. repeat split; try assumption.
    unfold state. now rewrite D. }
  split; [|split; [|split; [|split; [exact G|split]]]].
  - split; [exact (skip_fires (w n) p S)|].
    split; [reflexivity|]. split; [reflexivity|]. split; [reflexivity|].
    split; [apply K|]. apply natural_end_fires.
  - split; [apply K|]. split; [unfold state; now rewrite V|].
    split; [exact V|]. split; [apply after_play_reinsert_now|].
    split; [|exact Q]. unfold decided. now rewrite after_play_reinsert_repeat.
  - intros HQ. rewrite HQ in Q.
    exists (set_now None decided).
    rewrite K, (play_next_empty fuel w n decided VcIdle V Q).
    repeat split; try assumption. unfold state. simpl. now rewrite V.
  - intros nxt rest nxt' HQ HP HR HC. rewrite HQ in Q.
    destruct (play_next_resolves fuel w n decided VcIdle nxt nxt' rest
                V eq_refl Q HP HR HC) as (p' & E' & A & B & _ & D).
    exists p'. rewrite K. repeat split; try assumption.
    unfold state. now rewrite D.
  - intros HR HP HC. apply G; [|assumption|assumption].
    unfold resulting. now rewrite HR.
Qed.

(** C1, as stated, fails.  Under SINGLE the skipped track A is played
    again and B stays queued; under ALL the skipped track is put at the
    back of the queue. *)
Lemma skip_under_single_replays :
  (exists p',
     Session.skip 2 (Samples.always Samples.offline) 0
       (Samples.playing_A RepeatSingle) = Some (p', []) /\
     now p' = Some Samples.trackA /\ queue p' = [Samples.trackB]) /\
  (exists p',
     Session.skip 2 (Samples.always Samples.offline) 0
       (Samples.playing_A RepeatAll) = Some (p', []) /\
     now p' = Some Samples.trackB /\ queue p' = [Samples.trackA]).
Proof. split; eexists; (split; [vm_compute; reflexivity|]); split; reflexivity. Qed.

Lemma skip_takes_repeat_decision_witness :
  exists p',
    Session.skip 2 (Samples.always Samples.offline) 0
      (Samples.playing_A RepeatSingle) = Some (p', []) /\
    now p' = Some Samples.trackA /\
    queue p' = queue (Samples.playing_A RepeatSingle) /\
    state p' = Playing.
Proof.
  destruct (skip_takes_repeat_decision 1 (Samples.always Samples.offline) 0
              (Samples.playing_A RepeatSingle) Samples.trackA)
    as (_ & _ & _ & _ & _ & Single).
  - discriminate.
  - reflexivity.
  - apply Single; reflexivity.
Defined.

Lemma stop_then_callback fuel w n p cur :
  state p <> Idle -> now p = Some cur ->
  exists p1 p2,
    Session.stop fuel w n p = _play_next fuel w n p1 /\
    Session.panel_stop fuel w n p = _play_next fuel w n p2 /\
    voice_client p1 = Some VcIdle /\ now p1 = None /\
    voice_client p2 = Some VcIdle /\ now p2 = None /\
    queue p1 = match repeat p with
               | RepeatSingle | RepeatAll => [cur]
               | RepeatOff => []
               end /\
    queue p2 = queue p1.
Proof.
  intros S N. unfold Session.stop, Session.panel_stop, Cog.stop, Panel.stop, state in *.
  simpl.
  destruct (voice_client p) as [[|s|s]|] eqn:V; try congruence; simpl;
    unfold Session.settle, _after_play; simpl;
    (eexists; eexists; split; [reflexivity|]; split; [reflexivity|]);
    rewrite !after_play_reinsert_voice, !after_play_reinsert_now,
      !after_play_reinsert_queue; unfold reinserted; simpl;
    rewrite !cancel_updater_now, !cancel_updater_queue, !cancel_updater_voice,
      ?cancel_updater_repeat; simpl;
    rewrite N; destruct (repeat p); now repeat split.
Qed.

(** C2, where the code departs from it.  With a repeat mode other than
    OFF, stopping a playing or paused session does not leave it idle: the
    callback of the stopped voice client puts the current track back into
    the queue that [stop] has just cleared and the advance starts it
    again.  The command and the panel button behave alike. *)
Theorem stop_restarts_under_repeat
    (fuel : nat) (w : World) (n : nat) (p : Player) (cur : Track) :
  state p <> Idle ->
  now p = Some cur ->
  repeat p <> RepeatOff ->
  pending cur = false ->
  can_play (w n) (stream_url cur) = true ->
  (exists p',
     Session.stop (S fuel) w n p = Some (p', []) /\
     now p' = Some cur /\ queue p' = [] /\ state p' = Playing) /\
  (exists p',
     Session.panel_stop (S fuel) w n p = Some (p', []) /\
     now p' = Some cur /\ queue p' = [] /\ state p' = Playing).
Proof.
  intros S N R P C.
  destruct (stop_then_callback (Datatypes.S fuel) w n p cur S N)
    as (p1 & p2 & E1 & E2 & V1 & N1 & V2 & N2 & Q1 & Q2).
  assert (Q : queue p1 = [cur]) by (destruct (repeat p); congruence).
  rewrite Q in Q2. split.
  - destruct (play_next_starts fuel w n p1 VcIdle cur [] V1 eq_refl Q P C)
      as (p' & E' & A & B & _ & D).
    exists p'. rewrite E1. repeat split; try assumption. unfold state. now rewrite D.
  - destruct (play_next_starts fuel w n p2 VcIdle cur [] V2 eq_refl Q2 P C)
      as (p' & E' & A & B & _ & D).
    exists p'. rewrite E2. repeat split; try assumption. unfold state. now rewrite D.
Qed.

Lemma stop_restarts_under_repeat_witness :
  (exists p',
     Session.stop 2 (Samples.always Samples.offline) 0
       (Samples.playing_A RepeatSingle) = Some (p', []) /\
     now p' = Some Samples.trackA /\ queue p' = [] /\ state p' = Playing) /\
  (exists p',
     Session.panel_stop 2 (Samples.always Samples.offline) 0
       (Samples.playing_A RepeatSingle) = Some (p', []) /\
     now p' = Some Samples.trackA /\ queue p' = [] /\ state p' = Playing).
Proof.
  apply (stop_restarts_under_repeat 1 (Samples.always Samples.offline) 0
           (Samples.playing_A RepeatSingle) Samples.trackA);
    try reflexivity; discriminate.
Defined.

(** With repeat OFF, [stop] does what C2 says. *)
Lemma stop_clears_when_repeat_off fuel w n p cur :
  state p <> Idle -> now p = Some cur -> repeat p = RepeatOff ->
  (exists p',
     Session.stop (S fuel) w n p = Some (p', []) /\
     now p' = None /\ queue p' = [] /\ state p' = Idle) /\
  (exists p',
     Session.panel_stop (S fuel) w n p = Some (p', []) /\
     now p' = None /\ queue p' = [] /\ state p' = Idle).
Proof.
  intros S N R.
  destruct (stop_then_callback (Datatypes.S fuel) w n p cur S N)
    as (p1 & p2 & E1 & E2 & V1 & N1 & V2 & N2 & Q1 & Q2).
  rewrite R in Q1. rewrite Q1 in Q2. split.
  - exists (set_now None p1). rewrite E1, (play_next_empty fuel w n p1 VcIdle V1 Q1).
    repeat split; try assumption. unfold state. simpl. now rewrite V1.
  - exists (set_now None p2). rewrite E2, (play_next_empty fuel w n p2 VcIdle V2 Q2).
    repeat split; try assumption. unfold state. simpl. now rewrite V2.
Qed.

Lemma set_queue_same_queue p : set_queue (queue p) p = p.
Proof. now destruct p. Qed.

Lemma drain fuel w n p vc :
  voice_client p = Some vc ->
  (forall i t, nth_error (queue p) i = Some t ->
               pending t = true /\ _resolve_lazy_track (w (n + i)%nat) t = None) ->
  (List.length (queue p) < fuel)%nat ->
  _play_next fuel w n p =
    Some (set_now None (set_queue [] p), Expect.drain_notices w n (queue p)).
Proof.
  remember (queue p) as q eqn:Q. revert fuel n p Q.
  induction q as [|t q IH]; intros fuel n p Q V H L.
  - destruct fuel as [|fuel]; [simpl in L; lia|].
    simpl. rewrite V, <- Q. now rewrite Q, set_queue_same_queue.
  - destruct fuel as [|fuel]; [simpl in L; lia|].
    simpl. rewrite V, <- Q.
    destruct (H 0%nat t eq_refl) as [P R]. rewrite Nat.add_0_r in R.
    rewrite P, R.
    rewrite (IH fuel (S n) (set_queue q p) eq_refl V).
    + reflexivity.
    + intros i t' Hi. specialize (H (S i) t' Hi).
      now rewrite Nat.add_succ_r in H.
    + simpl in L. lia.
Qed.

Lemma drain_notices_length w n q :
  (List.length (Expect.drain_notices w n q) <= List.length q)%nat.
Proof.
  revert n. induction q as [|t q IH]; intros n; simpl; [lia|].
  rewrite length_app. specialize (IH (S n)).
  unfold skip_notice. destruct (notice_channel (w n)); simpl; lia.
Qed.

Lemma drain_notices_all w n q ch :
  (forall k, notice_channel (w k) = Some ch) ->
  Expect.drain_notices w n q = map (fun t => SkippedTrack ch (title t)) q.
Proof.
  intros H. revert n. induction q as [|t q IH]; intros n; simpl; [reflexivity|].
  rewrite IH. unfold skip_notice. now rewrite H.
Qed.

(** C5, as the code has it.  In a connected session whose queue holds N
    tracks, all waiting for their resolution and all failing it, the
    advance ends after its first call and N recursive ones: every track is
    popped and none is put back, the queue ends empty with nothing
    playing and the voice client idle as it was, and one notice is sent
    for each track that fails while the guild has a text channel the bot
    may write to, which makes N notices when there always is one. *)
Theorem failing_queue_drains
    (fuel : nat) (w : World) (n : nat) (p : Player) (vc : VoiceClient) :
  voice_client p = Some vc ->
  (forall i t, nth_error (queue p) i = Some t ->
               pending t = true /\ _resolve_lazy_track (w (n + i)%nat) t = None) ->
  (List.length (queue p) < fuel)%nat ->
  exists p' log,
    _play_next fuel w n p = Some (p', log) /\
    queue p' = [] /\ now p' = None /\ state p' = state p /\
    log = Expect.drain_notices w n (queue p) /\
    (List.length log <= List.length (queue p))%nat /\
    (forall ch, (forall k, notice_channel (w k) = Some ch) ->
       log = map (fun t => SkippedTrack ch (title t)) (queue p) /\
       List.length log = List.length (queue p)).
Proof.
  intros V H L. eexists. eexists. split; [exact (drain fuel w n p vc V H L)|].
  repeat split.
  - apply drain_notices_length.
  - now apply drain_notices_all.
  - rewrite (drain_notices_all w n (queue p) ch H0). apply length_map.
Qed.

(** C5, as stated, fails on the number of notices: in a guild where the
    bot may write to no text channel, a queue of one track that cannot be
    resolved drains without any notice. *)
Lemma drain_without_channel_is_silent :
  exists p' log,
    _play_next 2 (Samples.always Samples.muted) 0
      (Samples.idle_with [Samples.lazyA]) = Some (p', log) /\
    queue p' = [] /\ now p' = None /\
    log = [] /\
    List.length log <> List.length (queue (Samples.idle_with [Samples.lazyA])).
Proof.
  eexists. eexists. split; [vm_compute; reflexivity|].
  repeat split. simpl. discriminate.
Qed.

Lemma failing_queue_drains_witness :
  exists p' log,
    _play_next 3 (Samples.always Samples.offline) 0
      (Samples.idle_with [Samples.lazyA; Samples.lazyB])
    = Some (p', log) /\
    queue p' = [] /\ now p' = None /\ state p' = Idle /\
    log = [SkippedTrack 7 (title Samples.lazyA);
           SkippedTrack 7 (title Samples.lazyB)].
Proof.
  destruct (failing_queue_drains 3 (Samples.always Samples.offline) 0
              (Samples.idle_with [Samples.lazyA; Samples.lazyB]) VcIdle)
    as (p' & log & E & Q & N & S & L & _).
  - reflexivity.
  - intros [|[|[|i]]] t Hi; simpl in Hi; try discriminate;
      injection Hi as <-; split; reflexivity.
  - simpl. lia.
  - exists p', log. repeat split; assumption.
Defined.

End SchedulerFacts.

(** ** Lazy resolution *)

Module ResolverFacts.
Import Resolver.

Lemma resolve_carrying env t :
  Py.truthy (stream_url t) = true -> _resolve_lazy_track env t = Some t.
Proof. intros H. unfold _resolve_lazy_track. now rewrite H. Qed.

Lemma resolve_sets_stream env t t' :
  _resolve_lazy_track env t = Some t' -> Py.truthy (stream_url t') = true.
Proof.
  unfold _resolve_lazy_track.
  destruct (Py.truthy (stream_url t)) eqn:S.
  - intros H. injection H as <-. exact S.
  - destruct (query t) as [[|c q]|]; try discriminate.
    destruct (_extract_info_with_retry env _) as [info|]; try discriminate.
    destruct (i_entries info) as [[|e es]|];
      try discriminate;
      match goal with
      | |- context [Py.truthy (Py.or ?a ?b)] =>
          destruct (Py.truthy (Py.or a b)) eqn:U
      end; simpl; try discriminate;
      intros H; injection H as <-; exact U.
Qed.

(** C7.  Resolution returns a track that carries a stream just as it
    is, whatever the environment; and the track it returns for a pending
    one carries a stream, so that from then on every further resolution,
    in whatever environment, returns it unchanged. *)
Theorem resolution_happens_once :
  (forall env t,
     Py.truthy (stream_url t) = true -> _resolve_lazy_track env t = Some t) /\
  (forall env t t',
     pending t = true ->
     _resolve_lazy_track env t = Some t' ->
     pending t' = false /\
     Py.truthy (stream_url t') = true /\
     query t' = query t /\
     forall env', _resolve_lazy_track env' t' = Some t').
Proof.
  split; [exact resolve_carrying|].
  intros env t t' P H.
  pose proof (resolve_sets_stream env t t' H) as S.
  repeat split.
  - unfold pending. now rewrite S.
  - exact S.
  - unfold pending in P. apply andb_true_iff in P. destruct P as [P _].
    apply negb_true_iff in P.
    unfold _resolve_lazy_track in H. rewrite P in H.
    destruct (query t) as [[|c q]|]; try discriminate.
    destruct (_extract_info_with_retry env _) as [info|]; try discriminate.
    destruct (i_entries info) as [[|e es]|]; try discriminate;
      match type of H with
      | context [Py.truthy (Py.or ?a ?b)] => destruct (Py.truthy (Py.or a b))
      end; simpl in H; try discriminate; injection H as <-; reflexivity.
  - intros env'. now apply resolve_carrying.
Qed.

Lemma resolution_happens_once_witness :
  exists t',
    _resolve_lazy_track Samples.online Samples.lazyA = Some t' /\
    pending t' = false /\
    Py.truthy (stream_url t') = true /\
    query t' = query Samples.lazyA /\
    forall env', _resolve_lazy_track env' t' = Some t'.
Proof.
  eexists. split; [vm_compute; reflexivity|].
  apply (proj2 resolution_happens_once Samples.online Samples.lazyA);
    vm_compute; reflexivity.
Defined.

End ResolverFacts.

(** ** Playlist import *)

Module PlaylistFacts.
Import Playlist PlaylistSpec.
Open Scope Z_scope.

Lemma page_size_pos s : 0 < page_size s.
Proof. unfold page_size, SPOTIFY_PLAYLIST_LIMIT, per_page. simpl. lia. Qed.

Lemma add_items_all items s :
  limit_reached (fetched (add_items items s)) = false ->
  imp_player (add_items items s)
  = set_queue (queue (imp_player s) ++ page_tracks items) (imp_player s).
Proof.
  revert s. induction items as [|[t|] items IH]; intros s H; simpl in *.
  - rewrite app_nil_r. now destruct (imp_player s).
  - destruct (limit_reached (fetched s + 1)) eqn:L.
    + simpl in H. congruence.
    + rewrite (IH _ H). simpl. now rewrite <- app_assoc.
  - now apply IH.
Qed.

Lemma turn_continue api total s s' :
  turn api total s = Continue s' ->
  exists items,
    playlist_items api (page_size s) (offset s) = Some items /\
    imp_player s'
    = set_queue (queue (imp_player s) ++ page_tracks items) (imp_player s).
Proof.
  unfold turn. destruct (page_size s <=? 0); [discriminate|].
  destruct (playlist_items api (page_size s) (offset s)) as [items|];
    [|discriminate].
  destruct (Py.is_empty items); [discriminate|]. simpl.
  destruct (limit_reached (fetched (add_items items s))) eqn:L; [discriminate|].
  destruct (match total with Some t => _ | None => _ end); [discriminate|].
  destruct (_ <? _); [discriminate|].
  intros H. injection H as <-. simpl. exists items. split; [reflexivity|].
  now apply add_items_all.
Qed.

Lemma turn_raise api total s :
  playlist_items api (page_size s) (offset s) = None ->
  turn api total s = Raise s.
Proof.
  intros H. unfold turn. pose proof (page_size_pos s) as P.
  destruct (Z.leb_spec (page_size s) 0); [lia|]. now rewrite H.
Qed.

Lemma turn_raise_inv api total s s' :
  turn api total s = Raise s' ->
  s' = s /\ playlist_items api (page_size s) (offset s) = None.
Proof.
  unfold turn. destruct (page_size s <=? 0); [discriminate|].
  destruct (playlist_items api (page_size s) (offset s)) as [items|].
  - destruct (Py.is_empty items); [discriminate|]. simpl.
    destruct (limit_reached _); [discriminate|].
    destruct (match total with Some t => _ | None => _ end); [discriminate|].
    destruct (_ <? _); discriminate.
  - intros H. injection H as <-. now split.
Qed.

Lemma pages_fetched_player api total s pages s' :
  pages_fetched api total s pages s' ->
  imp_player s'
  = set_queue (queue (imp_player s) ++ flat_map page_tracks pages) (imp_player s).
Proof.
  induction 1 as [s|s items s' pages s'' Hi Ht _ IH]; simpl.
  - rewrite app_nil_r. now destruct (imp_player s).
  - rewrite IH. destruct (turn_continue _ _ _ _ Ht) as (items' & Hi' & E).
    rewrite Hi in Hi'. injection Hi' as <-. rewrite E. simpl.
    now rewrite <- app_assoc.
Qed.

(** The loop fails when, and only when, a page cannot be fetched after
    some pages that could. *)
Lemma fetch_loop_fails api total s pages s' fuel :
  pages_fetched api total s pages s' ->
  playlist_items api (page_size s') (offset s') = None ->
  (List.length pages < fuel)%nat ->
  fetch_loop fuel api total s = Some (Failed s').
Proof.
  intros H. revert fuel. induction H as [s|s items s' pages s'' Hi Ht _ IH];
    intros fuel N L; (destruct fuel as [|fuel]; [simpl in L; lia|]); simpl.
  - now rewrite (turn_raise api total s N).
  - rewrite Ht. apply IH; [exact N|simpl in L; lia].
Qed.

Lemma fetch_loop_failed api total fuel s s' :
  fetch_loop fuel api total s = Some (Failed s') ->
  exists pages,
    pages_fetched api total s pages s' /\
    playlist_items api (page_size s') (offset s') = None.
Proof.
  revert s. induction fuel as [|fuel IH]; intros s H; [discriminate|].
  simpl in H. destruct (turn api total s) as [s1|s1|s1] eqn:T.
  - destruct (IH s1 H) as (pages & Hp & Hn).
    destruct (turn_continue _ _ _ _ T) as (items & Hi & _).
    exists (items :: pages). split; [|exact Hn].
    econstructor; eassumption.
  - discriminate.
  - injection H as <-. destruct (turn_raise_inv _ _ _ _ T) as [-> N].
    exists []. split; [constructor|exact N].
Qed.

Lemma read_meta_fields api p :
  let p0 := snd (read_meta api p) in
  voice_client p0 = voice_client p /\ queue p0 = queue p /\ now p0 = now p /\
  volume p0 = volume p /\ repeat p0 = repeat p /\
  is_playlist p0 = is_playlist p /\ start_time p0 = start_time p /\
  panel_msg_id p0 = panel_msg_id p /\ panel_channel_id p0 = panel_channel_id p /\
  panel_updater p0 = panel_updater p /\
  panel_last_active p0 = panel_last_active p.
Proof.
  unfold read_meta. destruct (playlist_meta api) as [[total name]|]; simpl.
  - destruct (Py.truthy name); simpl; now repeat split.
  - now repeat split.
Qed.

(** C8.  When the import has fetched some pages, each of which let the
    loop go on, and the next page cannot be fetched, [spotify_playlist]
    returns with the failure report and sends nothing else: the queue is
    what it was, followed by the tracks of the pages fetched, in their
    order; the voice client, the playing track, the volume, the repeat
    mode, the playlist flag, the start time and the panel are what they
    were, and no advance is started. *)
Theorem failed_fetch_keeps_queued_tracks
    (fuel : nat) (api : Api) (w : World) (n : nat)
    (voice : option VoiceClient) (p : Player)
    (pages : list (list Item)) (s : Import) :
  pages_fetched api (fst (read_meta api p))
    {| fetched := 0; offset := 0; added := 0;
       imp_player := snd (read_meta api p) |} pages s ->
  playlist_items api (page_size s) (offset s) = None ->
  (List.length pages < fuel)%nat ->
  exists p',
    spotify_playlist fuel api w n voice p = Some (p', CouldNotFetch, []) /\
    queue p' = queue p ++ flat_map page_tracks pages /\
    voice_client p' = voice_client p /\ now p' = now p /\
    volume p' = volume p /\ repeat p' = repeat p /\
    is_playlist p' = is_playlist p /\ start_time p' = start_time p /\
    panel_msg_id p' = panel_msg_id p /\
    panel_channel_id p' = panel_channel_id p /\
    panel_updater p' = panel_updater p /\
    panel_last_active p' = panel_last_active p.
Proof.
  intros H N L. unfold spotify_playlist.
  destruct (read_meta_fields api p) as (A & B & C & D & E & F & G & I & J & K & M).
  destruct (read_meta api p) as [total p0] eqn:R. simpl in *.
  rewrite (fetch_loop_fails api total _ pages s fuel H N L).
  exists (imp_player s). split; [reflexivity|].
  rewrite (pages_fetched_player _ _ _ _ _ H). simpl.
  rewrite B. now repeat split.
Qed.

Lemma failed_fetch_keeps_queued_tracks_witness :
  exists p',
    spotify_playlist 2 flaky (Samples.always Samples.offline) 0 None
      (Samples.playing_A RepeatOff) = Some (p', CouldNotFetch, []) /\
    queue p' = Samples.trackB :: page_tracks full_page /\
    List.length (queue p') = 101%nat /\
    voice_client p' = voice_client (Samples.playing_A RepeatOff) /\
    now p' = Some Samples.trackA /\
    is_playlist p' = false.
Proof.
  destruct (failed_fetch_keeps_queued_tracks 2 flaky
              (Samples.always Samples.offline) 0 None
              (Samples.playing_A RepeatOff) [full_page]
              {| fetched := 100; offset := 100; added := 100;
                 imp_player :=
                   set_queue (Samples.trackB :: page_tracks full_page)
                     (set_playlist_name (Some "Mix"%string)
                        (Samples.playing_A RepeatOff)) |})
    as (p' & E & Q & V & N & _ & _ & I & _).
  - eapply fetched_page; [reflexivity|vm_compute; reflexivity|apply fetched_none].
  - reflexivity.
  - simpl. lia.
  - exists p'. split; [exact E|]. split; [exact Q|].
    split; [rewrite Q; reflexivity|]. now repeat split.
Defined.

(** Every failure report comes about in this way. *)
Lemma could_not_fetch_inv fuel api w n voice p p' log :
  spotify_playlist fuel api w n voice p = Some (p', CouldNotFetch, log) ->
  exists pages,
    queue p' = queue p ++ flat_map page_tracks pages /\ log = [].
Proof.
  unfold spotify_playlist.
  destruct (read_meta_fields api p) as (_ & B & _).
  destruct (read_meta api p) as [total p0] eqn:R. simpl in B.
  destruct (fetch_loop fuel api total _) as [[s|s]|] eqn:F; try discriminate.
  - destruct voice as [vc|].
    + destruct (negb (Voice.is_playing vc) && negb (Voice.is_paused vc)).
      * destruct (Scheduler._play_next _ _ _ _) as [[q l]|]; discriminate.
      * discriminate.
    + discriminate.
  - intros H. injection H as <- <-.
    destruct (fetch_loop_failed _ _ _ _ _ F) as (pages & Hp & _).
    exists pages. rewrite (pages_fetched_player _ _ _ _ _ Hp). simpl.
    now rewrite B.
Qed.

End PlaylistFacts.

(** ** The volume buttons *)

Module VolumeFacts.
Import VolumeSpec.














End VolumeFacts.

(** ** The event loop *)

Module LoopAloneFacts.
Import Resolver Scheduler Loop LoopAlone.

Lemma alone_done fuel w n s : waiting s = [] -> alone fuel w n s = Some s.
Proof. intros H. destruct fuel; simpl; now rewrite H. Qed.

(** Left alone, the event loop runs an advance as [_play_next] says. *)
Lemma start_ok env t s vc p1 :
  voice_client (player s) = Some vc ->
  start_playback env vc (set_now (Some t) (player s)) (stream_url t) = Some p1 ->
  start env t s = with_player p1 s.
Proof. intros V H. unfold start. simpl. now rewrite V, H. Qed.

Lemma start_raises env t s vc :
  voice_client (player s) = Some vc ->
  start_playback env vc (set_now (Some t) (player s)) (stream_url t) = None ->
  start env t s
  = spawn AfterPlaySleeping
      (send (error_notice env)
         (with_player (after_play_reinsert (set_now (Some t) (player s))) s)).
Proof. intros V H. unfold start. simpl. now rewrite V, H. Qed.

Lemma enter_waits env p out vc t rest :
  voice_client p = Some vc -> queue p = t :: rest -> pending t = true ->
  enter env (mkSys p [] out) = mkSys (set_queue rest p) [Resolving t] out.
Proof. intros V Q P. unfold enter. simpl. now rewrite V, Q, P. Qed.

Lemma enter_starts env p out vc t rest :
  voice_client p = Some vc -> queue p = t :: rest -> pending t = false ->
  enter env (mkSys p [] out) = start env t (mkSys (set_queue rest p) [] out).
Proof. intros V Q P. unfold enter. simpl. now rewrite V, Q, P. Qed.

(** Left alone, the event loop runs an advance as [_play_next] says. *)
Lemma alone_play_next fuel w n p p' log :
  _play_next fuel w n p = Some (p', log) ->
  forall out,
  exists fuel',
    alone fuel' w n (enter (w n) (mkSys p [] out))
    = Some (mkSys p' [] (out ++ log)).
Proof.
  revert n p p' log. induction fuel as [|fuel IH]; intros n p p' log H out;
    [discriminate|].
  cbn [_play_next] in H.
  destruct (voice_client p) as [vc|] eqn:V.
  2:{ injection H as <- <-. exists 0%nat. unfold enter. simpl.
      now rewrite V, app_nil_r. }
  destruct (queue p) as [|t rest] eqn:Q.
  { injection H as <- <-. exists 0%nat. unfold enter. simpl.
    now rewrite V, Q, app_nil_r. }
  destruct (pending t) eqn:P.
  - (* the track waits for its resolution *)
    rewrite (enter_waits _ _ _ _ _ _ V Q P).
    destruct (_resolve_lazy_track (w n) t) as [t'|] eqn:R.
    + destruct (start_playback (w n) vc (set_now (Some t') (set_queue rest p))
                  (stream_url t')) as [p1|] eqn:SP.
      * injection H as <- <-. exists 1%nat. simpl. rewrite R.
        rewrite (start_ok _ _ (mkSys (set_queue rest p) [] out) vc p1 V SP). simpl. now rewrite app_nil_r.
      * destruct (_play_next fuel w (S n) _) as [[p2 log2]|] eqn:E;
          [|discriminate].
        injection H as <- <-.
        destruct (IH _ _ _ _ E (out ++ error_notice (w n))) as [f Hf].
        exists (S (S f)).
        cbn [alone waiting step nth_error remove_nth resume player sent].
        rewrite R. rewrite (start_raises _ _ (mkSys (set_queue rest p) [] out) vc V SP).
        cbn [alone waiting step nth_error remove_nth resume spawn send
             with_player player sent app].
        rewrite <- app_assoc in Hf. exact Hf.
    + destruct (_play_next fuel w (S n) _) as [[p2 log2]|] eqn:E;
        [|discriminate].
      injection H as <- <-.
      destruct (IH _ _ _ _ E (out ++ skip_notice (w n) t)) as [f Hf].
      exists (S (S f)). cbn [alone waiting step nth_error remove_nth resume].
      rewrite R.
      cbn [alone waiting step nth_error remove_nth resume spawn send
           with_player player sent app].
      rewrite <- app_assoc in Hf. exact Hf.
  - (* the track can be started at once *)
    rewrite (enter_starts _ _ _ _ _ _ V Q P).
    destruct (start_playback (w n) vc (set_now (Some t) (set_queue rest p))
                (stream_url t)) as [p1|] eqn:SP.
    + injection H as <- <-. exists 0%nat.
      rewrite (start_ok _ _ (mkSys (set_queue rest p) [] out) vc p1 V SP). simpl. now rewrite app_nil_r.
    + destruct (_play_next fuel w (S n) _) as [[p2 log2]|] eqn:E;
        [|discriminate].
      injection H as <- <-.
      destruct (IH _ _ _ _ E (out ++ error_notice (w n))) as [f Hf].
      exists (S f). rewrite (start_raises _ _ (mkSys (set_queue rest p) [] out) vc V SP).
      cbn [alone waiting step nth_error remove_nth resume spawn send
           with_player player sent app].
      rewrite <- app_assoc in Hf. exact Hf.
Qed.

End LoopAloneFacts.

Module LoopFacts.
Import Resolver Scheduler Loop LoopSamples LoopSpec.

Lemma in_flight_spawn t s : in_flight (spawn t s) = S (in_flight s).
Proof. unfold in_flight, spawn. simpl. rewrite length_app. simpl. lia. Qed.

Lemma skip_idle env p :
  state p = Idle -> Cog.skip env p = mkOutcome p NothingToSkip false.
Proof.
  unfold state, Cog.skip. destruct (voice_client p) as [[|s|s]|]; try discriminate;
    reflexivity.
Qed.

Lemma skip_leaves_idle env p : state (out_player (Cog.skip env p)) = Idle.
Proof.
  unfold Cog.skip, state.
  destruct (voice_client p) as [[|s|s]|] eqn:V; simpl; now rewrite ?V.
Qed.

Lemma skip_keeps_queue_now env p :
  queue (out_player (Cog.skip env p)) = queue p /\
  now (out_player (Cog.skip env p)) = now p.
Proof.
  unfold Cog.skip. destruct (voice_client p) as [[|s|s]|]; simpl; now split.
Qed.

Lemma track_ends_keeps_queue_now p :
  queue (fst (Session.track_ends p)) = queue p /\
  now (fst (Session.track_ends p)) = now p.
Proof.
  unfold Session.track_ends. destruct (voice_client p) as [[|s|s]|]; simpl; now split.
Qed.

(** The callback of the voice client changes neither the queue nor the
    now-playing slot: it schedules [_after_play]. *)
Lemma callback_is_scheduled env s :
  queue (player (step env TrackEnds s)) = queue (player s) /\
  now (player (step env TrackEnds s)) = now (player s) /\
  queue (player (step env SkipCmd s)) = queue (player s) /\
  now (player (step env SkipCmd s)) = now (player s).
Proof.
  simpl.
  pose proof (track_ends_keeps_queue_now (player s)) as [A B].
  pose proof (skip_keeps_queue_now env (player s)) as [C D].
  destruct (Session.track_ends (player s)) as [p fired]. simpl in A, B.
  unfold command.
  destruct fired; destruct (out_after (Cog.skip env (player s))); simpl;
    now repeat split.
Qed.

Lemma start_playback_some env vc p url p' :
  start_playback env vc p url = Some p' ->
  voice_client p'
  = Some (VcPlaying {| src_url := url; src_volume := volume p |}) /\
  now p' = now p /\ queue p' = queue p.
Proof.
  unfold start_playback. destruct (can_play env url); [|discriminate].
  destruct (Voice.play vc _) as [vc'|] eqn:E; [|discriminate].
  intros H. injection H as <-.
  assert (vc' = VcPlaying {| src_url := url; src_volume := volume p |})
    by (destruct vc; simpl in E; congruence).
  subst vc'. simpl.
  rewrite SchedulerFacts.cancel_updater_voice, SchedulerFacts.cancel_updater_now,
    SchedulerFacts.cancel_updater_queue. simpl.
  destruct (SchedulerFacts.refresh_panel_fields env
    (set_voice_client (Some (VcPlaying {| src_url := url; src_volume := volume p |}))
       (set_start_time (Some (time_now env)) p))) as (A & B & C & _).
  now rewrite A, B, C.
Qed.

Lemma kept_idle b s :
  (in_flight s <= 1)%nat -> state (player s) = Idle -> kept b s.
Proof.
  intros L I.
  split; [split; [exact L|intros N; contradiction]|intros _ N; contradiction].
Qed.

Lemma settled_cases s :
  settled s ->
  waiting s = [] \/ (exists t, waiting s = [t] /\ state (player s) = Idle).
Proof.
  intros [L W]. unfold in_flight in L.
  destruct (waiting s) as [|t [|u l]] eqn:E; simpl in L; try lia.
  - now left.
  - right. exists t. split; [reflexivity|].
    destruct (state (player s)) eqn:I; [reflexivity| |];
      (assert (N : [t] = []) by (apply W; discriminate); discriminate).
Qed.

Lemma state_after_play_reinsert p :
  state (after_play_reinsert p) = state p.
Proof. unfold state. now rewrite SchedulerFacts.after_play_reinsert_voice. Qed.

(** [_play_next] from the start of its track on, when nothing else
    waits: the track plays, or the one coroutine that goes on is the
    [_after_play] of the start that failed. *)
Lemma start_kept b env t s :
  waiting s = [] -> state (player s) = Idle -> kept b (start env t s).
Proof.
  intros W I. unfold start. cbv zeta.
  set (p := set_now (Some t) (player s)).
  assert (Ip : state p = Idle) by exact I.
  destruct (match voice_client p with
            | Some vc => start_playback env vc p (stream_url t)
            | None => None
            end) as [p1|] eqn:E.
  - destruct (voice_client p) as [vc|]; [|discriminate].
    destruct (start_playback_some _ _ _ _ _ E) as (A & B & _).
    split; [split|].
    + unfold in_flight. simpl. rewrite W. simpl. lia.
    + intros _. exact W.
    + intros _ _. simpl. rewrite B. discriminate.
  - apply kept_idle.
    + rewrite in_flight_spawn. unfold in_flight. simpl. rewrite W. simpl. lia.
    + simpl. now rewrite state_after_play_reinsert.
Qed.

Lemma enter_kept b env s :
  waiting s = [] -> state (player s) = Idle -> kept b (enter env s).
Proof.
  intros W I. unfold enter. cbv zeta.
  destruct (voice_client (player s)) as [vc|] eqn:V.
  2:{ apply kept_idle; [unfold in_flight; rewrite W; simpl; lia|exact I]. }
  destruct (queue (player s)) as [|t rest] eqn:Q.
  { apply kept_idle; [unfold in_flight; simpl; rewrite W; simpl; lia|exact I]. }
  destruct (pending t).
  - apply kept_idle.
    + rewrite in_flight_spawn. unfold in_flight. simpl. rewrite W. simpl. lia.
    + exact I.
  - apply start_kept; [exact W|exact I].
Qed.

Lemma resume_kept b env t s :
  waiting s = [] -> state (player s) = Idle -> kept b (resume env t s).
Proof.
  intros W I. destruct t as [| |t|]; simpl.
  - apply kept_idle.
    + rewrite in_flight_spawn. unfold in_flight. simpl. rewrite W. simpl. lia.
    + simpl. now rewrite state_after_play_reinsert.
  - now apply enter_kept.
  - destruct (_resolve_lazy_track env t) as [t'|].
    + now apply start_kept.
    + apply kept_idle.
      * rewrite in_flight_spawn. unfold in_flight. simpl. rewrite W. simpl. lia.
      * exact I.
  - now apply enter_kept.
Qed.

(** A command that leaves the voice client stopped, and whose callback
    fires only when the client was playing or paused. *)
Lemma command_kept b o s :
  settled s ->
  state (out_player o) = Idle ->
  (out_after o = true -> state (player s) <> Idle) ->
  kept b (command o s).
Proof.
  intros H I F. unfold command. destruct (out_after o) eqn:A.
  - destruct H as [_ W]. pose proof (W (F eq_refl)) as W0.
    apply kept_idle; [|exact I].
    rewrite in_flight_spawn. unfold in_flight. simpl. rewrite W0. simpl. lia.
  - apply kept_idle; [|exact I]. exact (proj1 H).
Qed.

(** An event that is no new request to play keeps the session settled:
    the callback fires only when the voice client plays or is paused,
    hence when nothing waits, and a coroutine that runs again finds the
    voice client idle. *)
Lemma step_quiet_kept b env e s :
  quiet e = true -> kept b s -> kept b (step env e s).
Proof.
  intros Qe H. destruct e as [track| | | | |i]; try discriminate; simpl.
  - (* skip *)
    destruct (state (player s)) eqn:I.
    + rewrite (skip_idle env _ I). unfold command. simpl.
      destruct s; exact H.
    + apply command_kept; [exact (proj1 H)|apply skip_leaves_idle|].
      intros _. congruence.
    + apply command_kept; [exact (proj1 H)|apply skip_leaves_idle|].
      intros _. congruence.
  - (* stop *)
    apply command_kept; [exact (proj1 H)| |].
    + unfold Cog.stop, state.
      destruct (voice_client (player s)) as [[|x|x]|] eqn:V; simpl;
        rewrite ?SchedulerFacts.cancel_updater_voice; simpl; now rewrite ?V.
    + unfold Cog.stop, state.
      destruct (voice_client (player s)) as [[|x|x]|] eqn:V; simpl;
        congruence.
  - (* the track ends *)
    unfold Session.track_ends.
    destruct (voice_client (player s)) as [[|x|x]|] eqn:V; simpl.
    + apply kept_idle; [exact (proj1 (proj1 H))|]. unfold state. simpl. reflexivity.
    + destruct H as [[_ W] _].
      assert (N : state (player s) <> Idle) by (unfold state; rewrite V; discriminate).
      pose proof (W N) as W0.
      apply kept_idle; [|reflexivity].
      rewrite in_flight_spawn. unfold in_flight. simpl. rewrite W0. simpl. lia.
    + assert (N : state (player s) <> Idle) by (unfold state; rewrite V; discriminate).
      destruct H as [[L W] Sh]. split; [split; [exact L|]|].
      * intros _. simpl. exact (W N).
      * intros B _. simpl. exact (Sh B N).
    + destruct s; exact H.
  - (* a coroutine runs again *)
    destruct (settled_cases s (proj1 H)) as [W|(t & W & I)]; rewrite W.
    + destruct i; exact H.
    + destruct i as [|i]; simpl; [|destruct i; exact H].
      apply resume_kept; [reflexivity|exact I].
Qed.

Lemma run_quiet_kept b trace s :
  Forall (fun ev => quiet (fst ev) = true) trace ->
  kept b s -> kept b (run trace s).
Proof.
  revert s. induction trace as [|[e env] trace IH]; intros s F H; [exact H|].
  apply Forall_cons_iff in F. destruct F as [Fe F]. simpl.
  apply IH; [exact F|]. now apply step_quiet_kept.
Qed.

(** The only test before [_play_next] is that of the voice client: in a
    connected, idle session whose first queued track waits for its
    resolution, the end of a playlist import and an enqueue each start
    an advance, whatever waits already. *)
Lemma idle_test_starts_an_advance env s t rest track :
  voice_client (player s) = Some VcIdle ->
  queue (player s) = t :: rest ->
  pending t = true ->
  step env StartIfIdle s
  = spawn (Resolving t) (with_player (set_queue rest (player s)) s) /\
  step env (Enqueue track) s
  = spawn (Resolving t)
      (with_player (set_queue (rest ++ [track]) (player s)) s).
Proof.
  intros V Q P. destruct s as [p wt out]. simpl in V, Q.
  unfold step, ensure_voice, start_if_idle, enter, with_player, spawn.
  cbn [player waiting sent]. rewrite V.
  cbn [Voice.is_playing Voice.is_paused negb andb player waiting sent
       voice_client queue set_queue].
  rewrite V, Q. cbn [app]. rewrite P. now split.
Qed.

(** C4, where the code departs from it.  The callback of the voice
    client is serialized: after a skip as after the natural end of a
    track it changes neither the queue nor the now-playing slot and only
    schedules [_after_play] on the event loop.  As long as every advance
    comes from that callback, one advance at most is in flight, whatever
    the order of skips, stops, ends of tracks and resumptions, none is
    while the voice client plays, and the now-playing slot stays filled
    while it plays.  But [add_and_play] and [spotify_playlist] call
    [_play_next] after testing the voice client alone, which is idle also
    while an advance waits for the resolution of its track: each such
    call adds an advance to those in flight.  With two playlist tracks
    queued, an import that ends and an enqueue put two advances in
    flight; when both resolutions have come back the first track plays,
    the second advance has failed to start its track, sent an error
    notice, dropped the track and emptied the now-playing slot; its
    [_after_play] then fails on the enqueued track in the same way, and
    the session plays with an empty slot and an empty queue. *)
Theorem idle_test_misses_waiting_advance :
  (forall env s,
     queue (player (step env TrackEnds s)) = queue (player s) /\
     now (player (step env TrackEnds s)) = now (player s) /\
     queue (player (step env SkipCmd s)) = queue (player s) /\
     now (player (step env SkipCmd s)) = now (player s)) /\
  (forall trace s,
     settled s ->
     Forall (fun ev => quiet (fst ev) = true) trace ->
     (in_flight (run trace s) <= 1)%nat /\
     (state (player (run trace s)) <> Idle -> waiting (run trace s) = []) /\
     (shown s -> shown (run trace s))) /\
  (forall env s t rest track,
     voice_client (player s) = Some VcIdle ->
     queue (player s) = t :: rest ->
     pending t = true ->
     in_flight (step env StartIfIdle s) = S (in_flight s) /\
     in_flight (step env (Enqueue track) s) = S (in_flight s)) /\
  (settled two_lazy /\ shown two_lazy /\
   waiting (run overlap two_lazy)
   = [Resolving Samples.lazyA; Resolving Samples.lazyB] /\
   in_flight (run overlap two_lazy) = 2%nat /\
   state (player (run both_resolve (run overlap two_lazy))) = Playing /\
   now (player (run both_resolve (run overlap two_lazy))) = None /\
   queue (player (run both_resolve (run overlap two_lazy)))
   = [Samples.trackA] /\
   sent (run both_resolve (run overlap two_lazy)) = [PlaybackError 7] /\
   state (player (run sleeps_end (run both_resolve (run overlap two_lazy))))
   = Playing /\
   now (player (run sleeps_end (run both_resolve (run overlap two_lazy))))
   = None /\
   queue (player (run sleeps_end (run both_resolve (run overlap two_lazy))))
   = [] /\
   sent (run sleeps_end (run both_resolve (run overlap two_lazy)))
   = [PlaybackError 7; PlaybackError 7]).
Proof.
  split; [|split; [|split]].
  - exact callback_is_scheduled.
  - intros trace s H F.
    destruct (run_quiet_kept false trace s F) as [[L W] _].
    { split; [exact H|discriminate]. }
    split; [exact L|]. split; [exact W|].
    intros Sh.
    exact (proj2 (run_quiet_kept true trace s F (conj H (fun _ => Sh))) eq_refl).
  - intros env s t rest track V Q P.
    destruct (idle_test_starts_an_advance env s t rest track V Q P) as [A B].
    rewrite A, B, !in_flight_spawn. now split.
  - destruct (kept_idle true two_lazy) as [St Sh];
      [unfold in_flight; simpl; lia|reflexivity|].
    split; [exact St|]. split; [now apply Sh|].
    repeat split; vm_compute; reflexivity.
Qed.

Lemma idle_test_misses_waiting_advance_witness :
  (in_flight (run skip_twice playing) <= 1)%nat /\
  shown (run skip_twice playing).
Proof.
  destruct idle_test_misses_waiting_advance as (_ & Guarded & _).
  destruct (Guarded skip_twice playing) as (L & _ & Sh).
  - split; [unfold in_flight; simpl; lia|]. intros _. reflexivity.
  - repeat constructor.
  - split; [exact L|]. apply Sh. intros _. discriminate.
Defined.

End LoopFacts.

(** ** Extraction and resolution *)

Module ExtractFacts.
Import Select Resolver ResolverSpec.

Lemma select_some_truthy m u :
  _select_best_audio_url m = Some u -> Py.truthy (Some u) = true.
Proof.
  unfold _select_best_audio_url.
  destruct (Py.truthy (m_url m) && Py.is_empty (Py.list_or_empty (m_formats m))) eqn:B.
  - intros H. apply andb_true_iff in B. destruct B as [B _]. now rewrite <- H.
  - destruct (Py.is_empty (candidates m)) eqn:E; [discriminate|].
    destruct (sorted_desc (candidates m)) as [|best s] eqn:S; [discriminate|].
    intros H. rewrite <- H.
    assert (Hin : In best (candidates m)).
    { eapply Permutation_in; [symmetry; apply SelectFacts.sorted_desc_perm|].
      rewrite S. now left. }
    rewrite SelectFacts.candidates_filter in Hin. apply filter_In in Hin.
    rewrite SelectFacts.Py_truthy_or. exact (proj2 Hin).
Qed.

Lemma playable_iff_stream m :
  is_some (_select_best_audio_url m) || Py.truthy (m_url m)
  = Py.truthy (stream_of m).
Proof.
  unfold stream_of. rewrite SelectFacts.Py_truthy_or.
  destruct (_select_best_audio_url m) as [u|] eqn:S;
    [rewrite (select_some_truthy m u S)|]; reflexivity.
Qed.

Lemma has_playable_spec i :
  has_playable i = match i with
                   | Some info => match picked info with
                                  | Some m => Py.truthy (stream_of m)
                                  | None => false
                                  end
                   | None => false
                   end.
Proof.
  destruct i as [info|]; [|reflexivity]. unfold has_playable, picked.
  destruct (i_entries info) as [[|e es]|]; try reflexivity; apply playable_iff_stream.
Qed.


Lemma retry_result env target :
  let first := extract_info env target in
  let second := extract_info_web env target in
  _extract_info_with_retry env target
  = if has_playable first then first
    else if has_playable second then second
    else match second with Some _ => second | None => first end.
Proof. reflexivity. Qed.

Lemma retry_playable env target :
  has_playable (_extract_info_with_retry env target)
  = has_playable (extract_info env target)
    || has_playable (extract_info_web env target).
Proof.
  rewrite retry_result. cbv zeta.
  destruct (has_playable (extract_info env target)) eqn:F; [exact F|].
  destruct (has_playable (extract_info_web env target)) eqn:S; [exact S|].
  destruct (extract_info_web env target); [exact S|exact F].
Qed.

Lemma retry_none env target :
  _extract_info_with_retry env target = None <->
  extract_info env target = None /\ extract_info_web env target = None.
Proof.
  rewrite retry_result. cbv zeta.
  destruct (extract_info env target) as [i1|];
    destruct (extract_info_web env target) as [i2|];
    change (has_playable None) with false; cbv iota;
    repeat match goal with
           | |- context [if has_playable ?x then _ else _] =>
               destruct (has_playable x)
           end;
    split; intros H; try discriminate; try (destruct H; discriminate);
    try (split; reflexivity); reflexivity.
Qed.

(** X1.  The extraction with retry returns the answer of the default
    profile when it is playable, whatever the fallback would say; else
    the answer of the fallback profile when that is playable; so its
    result is playable exactly when one of the two answers is, and it is
    [None] only when both profiles gave nothing. *)
Theorem retry_finds_what_either_profile_finds (env : Env) (target : string) :
  let first := extract_info env target in
  let second := extract_info_web env target in
  let result := _extract_info_with_retry env target in
  (has_playable first = true -> result = first) /\
  (has_playable first = false -> has_playable second = true ->
   result = second) /\
  has_playable result = has_playable first || has_playable second /\
  (result = None <-> first = None /\ second = None).
Proof.
  cbv zeta. split; [|split; [|split]].
  - intros H. rewrite retry_result. cbv zeta. now rewrite H.
  - intros H1 H2. rewrite retry_result. cbv zeta. now rewrite H1, H2.
  - apply retry_playable.
  - apply retry_none.
Qed.

Lemma resolve_pending env t c q :
  Py.truthy (stream_url t) = false ->
  query t = Some (String c q) ->
  _resolve_lazy_track env t
  = let target := match video_search env (String c q) with
                  | Some (String _ _ as link) => link
                  | _ => ("ytsearch1:" ++ String c q)%string
                  end in
    match _extract_info_with_retry env target with
    | None => None
    | Some info =>
        match picked info with
        | None => None
        | Some m =>
            if negb (Py.truthy (stream_of m)) then None
            else
              let thumb := if Py.truthy (m_thumbnail m) then m_thumbnail m
                           else last_thumbnail (Py.list_or_empty (m_thumbnails m)) in
              Some {| title := if Py.truthy (m_title m) then m_title m else title t;
                      webpage_url := if Py.truthy (m_webpage_url m)
                                     then m_webpage_url m else webpage_url t;
                      stream_url := stream_of m;
                      duration := duration t;
                      thumbnail := if Py.truthy thumb then thumb else thumbnail t;
                      query := query t |}
        end
    end.
Proof. intros S Q. unfold _resolve_lazy_track. rewrite S, Q. reflexivity. Qed.


(** X2.  Lazy resolution of a pending track succeeds exactly when one of
    the two extraction profiles returns a playable description for the
    search target (the link found by the video search, else the
    [ytsearch1:] directive), and then the stream it sets is the one
    selected from the description the retry returned. *)
Theorem resolution_succeeds_iff_playable (env : Env) (t : Track) (q : string) :
  Py.truthy (stream_url t) = false ->
  query t = Some q -> q <> EmptyString ->
  let target := match video_search env q with
                | Some (String _ _ as link) => link
                | _ => ("ytsearch1:" ++ q)%string
                end in
  (is_some (_resolve_lazy_track env t)
   = has_playable (extract_info env target)
     || has_playable (extract_info_web env target)) /\
  (forall t', _resolve_lazy_track env t = Some t' ->
     exists info m,
       _extract_info_with_retry env target = Some info /\
       picked info = Some m /\
       stream_url t' = stream_of m).
Proof.
  intros S Q N target. destruct q as [|c q]; [congruence|].
  rewrite <- retry_playable, has_playable_spec.
  rewrite (resolve_pending env t c q S Q). cbv zeta. fold target.
  destruct (_extract_info_with_retry env target) as [info|] eqn:E;
    [|split; [reflexivity|discriminate]].
  destruct (picked info) as [m|] eqn:P; [|split; [reflexivity|discriminate]].
  destruct (Py.truthy (stream_of m)); simpl;
    (split; [reflexivity|]); [|discriminate].
  intros t' H. injection H as <-. exists info, m. now repeat split.
Qed.

Lemma resolution_succeeds_iff_playable_witness :
  is_some (_resolve_lazy_track Samples.online Samples.lazyA) = true /\
  exists info m,
    _extract_info_with_retry Samples.online "ytsearch1:Song A" = Some info /\
    picked info = Some m /\
    Some "https://cdn.example/stream"%string = stream_of m.
Proof.
  destruct (resolution_succeeds_iff_playable Samples.online Samples.lazyA
              "Song A" eq_refl eq_refl) as [A B]; [discriminate|].
  split; [exact A|]. apply (B _ eq_refl).
Defined.

(** X3.  A track without a stream and without a query is never
    resolved, whatever the backend answers; and a resolution that
    succeeds keeps the query and the duration of the track and never
    replaces its title, page URL or thumbnail by an empty value: each
    stays as it was unless the description found gives a non-empty
    one. *)
Theorem resolution_keeps_metadata (env : Env) (t : Track) :
  (Py.truthy (stream_url t) = false -> Py.truthy (query t) = false ->
   _resolve_lazy_track env t = None) /\
  (forall t', _resolve_lazy_track env t = Some t' ->
     query t' = query t /\ duration t' = duration t /\
     (title t' = title t \/ Py.truthy (title t') = true) /\
     (webpage_url t' = webpage_url t \/ Py.truthy (webpage_url t') = true) /\
     (thumbnail t' = thumbnail t \/ Py.truthy (thumbnail t') = true)).
Proof.
  split.
  - intros S Q. unfold _resolve_lazy_track. rewrite S.
    destruct (query t) as [[|c q]|]; try reflexivity. discriminate.
  - intros t' H. destruct (Py.truthy (stream_url t)) eqn:S.
    { rewrite (ResolverFacts.resolve_carrying env t S) in H. injection H as <-.
      repeat split; now left. }
    destruct (query t) as [[|c q]|] eqn:Q;
      try (unfold _resolve_lazy_track in H; rewrite S, Q in H; discriminate).
    rewrite (resolve_pending env t c q S Q) in H. cbv zeta in H.
    destruct (_extract_info_with_retry env _) as [info|]; [|discriminate].
    destruct (picked info) as [m|]; [|discriminate].
    destruct (negb (Py.truthy (stream_of m))); [discriminate|].
    injection H as <-. simpl. repeat split; try assumption.
    + destruct (Py.truthy (m_title m)) eqn:E; [now right|now left].
    + destruct (Py.truthy (m_webpage_url m)) eqn:E; [now right|now left].
    + match goal with |- context [if Py.truthy ?x then ?x else _] =>
        destruct (Py.truthy x) eqn:E end; [now right|now left].
Qed.

End ExtractFacts.

(** ** The advance *)

Module AdvanceFacts.
Import Resolver Scheduler Expect AdvanceSpec.

Lemma play_next_S fuel w n p :
  _play_next (S fuel) w n p
  = match voice_client p with
    | None => Some (p, [])
    | Some vc =>
        match queue p with
        | [] => Some (set_now None p, [])
        | next_track :: rest =>
            match (if pending next_track
                   then _resolve_lazy_track (w n) next_track
                   else Some next_track) with
            | None =>
                match _play_next fuel w (S n) (set_queue rest p) with
                | Some (p', log) => Some (p', skip_notice (w n) next_track ++ log)
                | None => None
                end
            | Some t =>
                match start_playback (w n) vc
                        (set_now (Some t) (set_queue rest p)) (stream_url t) with
                | Some p' => Some (p', [])
                | None =>
                    match _play_next fuel w (S n)
                            (after_play_reinsert
                               (set_now (Some t) (set_queue rest p))) with
                    | Some (p', log) => Some (p', error_notice (w n) ++ log)
                    | None => None
                    end
                end
            end
        end
    end.
Proof. reflexivity. Qed.

(** The advance passes the tracks that fail to resolve and goes on with
    what follows them. *)
Lemma play_next_skips fuel w n p vc fails rest :
  voice_client p = Some vc ->
  queue p = fails ++ rest ->
  (forall i t, nth_error fails i = Some t ->
     pending t = true /\ _resolve_lazy_track (w (n + i)%nat) t = None) ->
  _play_next (List.length fails + fuel) w n p
  = match _play_next fuel w (n + List.length fails) (set_queue rest p) with
    | Some (p', log) => Some (p', drain_notices w n fails ++ log)
    | None => None
    end.
Proof.
  revert n p. induction fails as [|t fails IH]; intros n p V Q H.
  - simpl in *. rewrite Nat.add_0_r. rewrite <- Q.
    rewrite SchedulerFacts.set_queue_same_queue.
    destruct (_play_next fuel w n p) as [[p' log]|]; reflexivity.
  - simpl List.length. simpl plus. rewrite play_next_S, V, Q. simpl app.
    destruct (H 0%nat t eq_refl) as [P R]. rewrite Nat.add_0_r in R.
    rewrite P, R.
    rewrite (IH (S n) (set_queue (fails ++ rest) p) V eq_refl).
    + replace (S n + List.length fails)%nat with (n + S (List.length fails))%nat by lia.
      simpl drain_notices.
      destruct (_play_next fuel w _ _) as [[p' log]|]; [|reflexivity].
      now rewrite app_assoc.
    + intros i t' Hi. specialize (H (S i) t' Hi).
      now rewrite Nat.add_succ_r in H.
Qed.

(** X4.  The advance is first-in first-out: it drops, each with its
    notice, the pending tracks at the head of the queue whose resolution
    fails, starts the first track that is ready or resolves, and leaves
    the tracks behind it queued in their order. *)
Theorem advance_starts_first_playable
    (fuel : nat) (w : World) (n : nat) (p : Player) (vc : VoiceClient)
    (fails : list Track) (good good' : Track) (rest : list Track) :
  voice_client p = Some vc ->
  Voice.is_playing vc = false ->
  queue p = fails ++ good :: rest ->
  (forall i t, nth_error fails i = Some t ->
     pending t = true /\ _resolve_lazy_track (w (n + i)%nat) t = None) ->
  (if pending good
   then _resolve_lazy_track (w (n + List.length fails)%nat) good
   else Some good) = Some good' ->
  can_play (w (n + List.length fails)%nat) (stream_url good') = true ->
  exists p',
    _play_next (List.length fails + S fuel) w n p
    = Some (p', drain_notices w n fails) /\
    now p' = Some good' /\ queue p' = rest /\ state p' = Playing /\
    voice_client p'
    = Some (VcPlaying {| src_url := stream_url good'; src_volume := volume p |}).
Proof.
  intros V I Q F G C.
  rewrite (play_next_skips (S fuel) w n p vc fails (good :: rest) V Q F).
  rewrite play_next_S. cbn [voice_client queue set_queue]. rewrite V, G.
  destruct (SchedulerFacts.start_playback_ok (w (n + List.length fails)%nat) vc
              (set_now (Some good') (set_queue rest (set_queue (good :: rest) p)))
              (stream_url good') C I) as (p' & E & A & B & D & _).
  rewrite E. exists p'. rewrite app_nil_r. repeat split; try assumption.
  unfold state. now rewrite A.
Qed.


Lemma advance_starts_first_playable_witness :
  exists p',
    _play_next 2 (Samples.always Samples.offline) 0
      (Samples.idle_with [Samples.lazyA; Samples.trackA; Samples.trackB])
    = Some (p', [SkippedTrack 7 (title Samples.lazyA)]) /\
    now p' = Some Samples.trackA /\ queue p' = [Samples.trackB] /\
    state p' = Playing.
Proof.
  destruct (advance_starts_first_playable 0 (Samples.always Samples.offline) 0
              (Samples.idle_with [Samples.lazyA; Samples.trackA; Samples.trackB])
              VcIdle [Samples.lazyA] Samples.trackA Samples.trackA
              [Samples.trackB]) as (p' & E & N & Q & S & _);
    try reflexivity.
  - intros [|[|i]] t Hi; simpl in Hi; try discriminate.
    injection Hi as <-. split; reflexivity.
  - exists p'. now repeat split.
Defined.

Lemma start_playback_fails env vc p url :
  can_play env url = false -> start_playback env vc p url = None.
Proof. intros H. unfold start_playback. now rewrite H. Qed.

Lemma start_playback_fields env vc p url p' :
  start_playback env vc p url = Some p' ->
  queue p' = queue p /\ now p' = now p /\ volume p' = volume p /\
  repeat p' = repeat p /\ is_playlist p' = is_playlist p /\
  playlist_name p' = playlist_name p /\
  voice_client p' = Some (VcPlaying {| src_url := url; src_volume := volume p |}).
Proof.
  unfold start_playback. destruct (can_play env url); [|discriminate].
  destruct (Voice.play vc _) as [vc'|] eqn:E; [|discriminate].
  assert (vc' = VcPlaying {| src_url := url; src_volume := volume p |})
    by (destruct vc; simpl in E; congruence).
  subst vc'. intros H. injection H as <-.
  unfold cancel_updater, refresh_panel, ensure_panel_forced.
  cbn [panel_msg_id set_voice_client set_start_time].
  destruct (panel_msg_id p); [destruct (panel_edit env);
    try destruct (panel_send env) as [[m c]|]|];
    cbn; destruct (panel_updater p) as [[]|]; cbn; now repeat split.
Qed.

Lemma after_play_reinsert_fields p :
  is_playlist (after_play_reinsert p) = is_playlist p /\
  playlist_name (after_play_reinsert p) = playlist_name p.
Proof.
  unfold after_play_reinsert, cancel_updater.
  destruct (now p); destruct (repeat p); cbn;
    destruct (panel_updater p) as [[]|]; cbn; now split.
Qed.

(** X5.  Under repeat OFF, a queue of N tracks none of which can be
    started drains: each is popped, reported when the guild has a
    channel to write to, and dropped, and the advance ends with an empty
    queue and nothing playing after N recursive calls. *)
Theorem unplayable_queue_drains_when_repeat_off
    (fuel : nat) (w : World) (n : nat) (p : Player) (vc : VoiceClient) :
  voice_client p = Some vc ->
  repeat p = RepeatOff ->
  (forall i t, nth_error (queue p) i = Some t ->
     exists t', attempt (w (n + i)%nat) t = Some t' /\
                can_play (w (n + i)%nat) (stream_url t') = false) ->
  (List.length (queue p) < fuel)%nat ->
  exists p',
    _play_next fuel w n p
    = Some (p', error_notices w n (List.length (queue p))) /\
    queue p' = [] /\ now p' = None /\ voice_client p' = Some vc.
Proof.
  remember (queue p) as q eqn:Q. revert fuel n p Q.
  induction q as [|t q IH]; intros fuel n p Q V R H L;
    (destruct fuel as [|fuel]; [simpl in L; lia|]); rewrite play_next_S, V, <- Q.
  - exists (set_now None p). repeat split; [cbn; congruence|exact V].
  - destruct (H 0%nat t eq_refl) as (t' & A & C). rewrite Nat.add_0_r in A, C.
    unfold attempt in A. rewrite A, (start_playback_fails _ _ _ _ C).
    destruct (IH fuel (S n)
                (after_play_reinsert (set_now (Some t') (set_queue q p))))
      as (p' & E & Q' & N' & V').
    + rewrite SchedulerFacts.after_play_reinsert_queue. unfold reinserted.
      cbn [now set_now repeat set_queue queue]. now rewrite R.
    + now rewrite SchedulerFacts.after_play_reinsert_voice.
    + now rewrite SchedulerFacts.after_play_reinsert_repeat.
    + intros i t0 Hi. specialize (H (S i) t0 Hi).
      now rewrite Nat.add_succ_r in H.
    + simpl in L. lia.
    + rewrite E. exists p'. now repeat split.
Qed.



Lemma unplayable_queue_drains_when_repeat_off_witness :
  exists p',
    _play_next 3 (Samples.always jammed) 0
      (Samples.idle_with [Samples.trackA; Samples.trackB])
    = Some (p', [PlaybackError 7; PlaybackError 7]) /\
    queue p' = [] /\ now p' = None /\ voice_client p' = Some VcIdle.
Proof.
  apply (unplayable_queue_drains_when_repeat_off 3
           (Samples.always jammed) 0
           (Samples.idle_with [Samples.trackA; Samples.trackB]) VcIdle);
    try reflexivity.
  - intros [|[|[|i]]] t Hi; simpl in Hi; try discriminate;
      injection Hi as <-; eexists; split; reflexivity.
  - simpl. lia.
Defined.


(** X7.  Whatever the environment, an advance that returns has changed
    neither the volume, nor the repeat mode, nor the playlist flag and
    name, and has neither attached nor detached the voice client; and
    under repeat OFF it has only popped tracks from the front of the
    queue: what is left is a suffix of the queue it found. *)
Theorem advance_only_pops
    (fuel : nat) (w : World) (n : nat) (p p' : Player) (log : list Msg) :
  _play_next fuel w n p = Some (p', log) ->
  volume p' = volume p /\ repeat p' = repeat p /\
  is_playlist p' = is_playlist p /\ playlist_name p' = playlist_name p /\
  (voice_client p' = None <-> voice_client p = None) /\
  (repeat p = RepeatOff -> exists popped, queue p = popped ++ queue p').
Proof.
  revert n p p' log. induction fuel as [|fuel IH]; intros n p p' log H;
    [discriminate|].
  rewrite play_next_S in H. destruct (voice_client p) as [vc|] eqn:V.
  2:{ injection H as <- <-.
      split; [|split; [|split; [|split; [|split]]]]; try reflexivity;
        try tauto.
      intros _. now exists []. }
  destruct (queue p) as [|t rest] eqn:Q.
  { injection H as <- <-. cbn. rewrite Q, V.
    split; [|split; [|split; [|split; [|split]]]]; try reflexivity;
      try tauto.
    intros _. now exists []. }
  destruct (if pending t then _ else _) as [t'|].
  - destruct (start_playback (w n) vc _ (stream_url t')) as [p1|] eqn:SP.
    + injection H as <- <-.
      destruct (start_playback_fields _ _ _ _ _ SP) as (A & B & C & D & E & F & G).
      rewrite C, D, E, F, G. cbn.
      split; [|split; [|split; [|split; [|split]]]]; try reflexivity.
      * split; discriminate.
      * intros _. exists [t]. now rewrite A.
    + destruct (_play_next fuel w (S n) _) as [[p2 log2]|] eqn:E; [|discriminate].
      injection H as <- <-.
      destruct (IH _ _ _ _ E) as (A & B & C & D & F & G).
      destruct (after_play_reinsert_fields (set_now (Some t') (set_queue rest p)))
        as [I J].
      rewrite SchedulerFacts.after_play_reinsert_volume in A.
      rewrite SchedulerFacts.after_play_reinsert_repeat in B, G.
      rewrite SchedulerFacts.after_play_reinsert_voice in F.
      rewrite SchedulerFacts.after_play_reinsert_queue in G.
      rewrite I in C. rewrite J in D. cbn in A, B, C, D, F, G.
      rewrite V in F.
      split; [|split; [|split; [|split; [|split]]]]; try assumption.
      intros R. destruct (G R) as [popped Hp]. unfold reinserted in Hp.
      cbn in Hp. rewrite R in Hp. exists (t :: popped). now rewrite Hp.
  - destruct (_play_next fuel w (S n) _) as [[p2 log2]|] eqn:E; [|discriminate].
    injection H as <- <-.
    destruct (IH _ _ _ _ E) as (A & B & C & D & F & G). cbn in A, B, C, D, F, G.
    rewrite V in F.
    split; [|split; [|split; [|split; [|split]]]]; try assumption.
    intros R. destruct (G R) as [popped Hp]. exists (t :: popped). now rewrite Hp.
Qed.

Lemma advance_only_pops_witness :
  exists p',
    _play_next 2 (Samples.always Samples.offline) 0
      (Samples.idle_with [Samples.lazyA; Samples.trackA; Samples.trackB])
    = Some (p', [SkippedTrack 7 (title Samples.lazyA)]) /\
    volume p' = 0.15%float /\ repeat p' = RepeatOff /\
    exists popped,
      [Samples.lazyA; Samples.trackA; Samples.trackB] = popped ++ queue p'.
Proof.
  eexists. split; [vm_compute; reflexivity|].
  match goal with
  | |- context [volume ?q] =>
      destruct (advance_only_pops 2 (Samples.always Samples.offline) 0
                  (Samples.idle_with
                     [Samples.lazyA; Samples.trackA; Samples.trackB])
                  q [SkippedTrack 7 (title Samples.lazyA)])
        as (A & B & _ & _ & _ & G)
  end.
  - vm_compute. reflexivity.
  - split; [exact A|]. split; [exact B|]. apply G. reflexivity.
Defined.

End AdvanceFacts.

(** ** Repeat modes *)

Module RepeatFacts.
Import Resolver Scheduler Expect RepeatSpec.

Lemma natural_end_then_callback fuel w n p cur :
  state p = Playing -> now p = Some cur ->
  exists p1,
    Session.natural_end fuel w n p = _play_next fuel w n p1 /\
    voice_client p1 = Some VcIdle /\ now p1 = None /\
    repeat p1 = repeat p /\ volume p1 = volume p /\
    queue p1 = match repeat p with
               | RepeatSingle => cur :: queue p
               | RepeatAll => queue p ++ [cur]
               | RepeatOff => queue p
               end.
Proof.
  intros S N. unfold Session.natural_end, Session.track_ends, state in *.
  destruct (voice_client p) as [[|s|s]|] eqn:V; try discriminate.
  cbn [Voice.finish Session.settle]. unfold _after_play.
  eexists. split; [reflexivity|].
  rewrite SchedulerFacts.after_play_reinsert_voice,
    SchedulerFacts.after_play_reinsert_now,
    SchedulerFacts.after_play_reinsert_repeat,
    SchedulerFacts.after_play_reinsert_volume,
    SchedulerFacts.after_play_reinsert_queue.
  unfold reinserted. cbn. rewrite N. now repeat split.
Qed.

(** One natural end, when the head of the queue after the repeat
    decision is ready and can be played. *)
Lemma natural_end_step fuel w n p cur nxt rest :
  state p = Playing -> now p = Some cur ->
  match repeat p with
  | RepeatSingle => cur :: queue p
  | RepeatAll => queue p ++ [cur]
  | RepeatOff => queue p
  end = nxt :: rest ->
  pending nxt = false ->
  can_play (w n) (stream_url nxt) = true ->
  exists p' log,
    Session.natural_end (S fuel) w n p = Some (p', log) /\
    now p' = Some nxt /\ queue p' = rest /\ state p' = Playing /\
    repeat p' = repeat p.
Proof.
  intros S N Q P C.
  destruct (natural_end_then_callback (Datatypes.S fuel) w n p cur S N)
    as (p1 & E & V & N1 & R & _ & Q1).
  rewrite Q in Q1.
  destruct (SchedulerFacts.play_next_starts fuel w n p1 VcIdle nxt rest
              V eq_refl Q1 P C) as (p' & E' & A & B & D & F).
  exists p', []. rewrite E. repeat split; try assumption.
  - unfold state. now rewrite F.
  - congruence.
Qed.

(** X8.  Under repeat SINGLE a track that is ready and can be played is
    repeated for ever: after any number of natural ends it is playing
    again, unchanged, and the queue behind it is as it was. *)
Theorem single_repeats_for_ever
    (k : nat) (fuel : nat) (w : World) (n : nat) (p : Player) (cur : Track) :
  state p = Playing ->
  now p = Some cur ->
  repeat p = RepeatSingle ->
  pending cur = false ->
  (forall i, can_play (w i) (stream_url cur) = true) ->
  exists p',
    play_through k (S fuel) w n p = Some p' /\
    now p' = Some cur /\ queue p' = queue p /\ state p' = Playing /\
    repeat p' = RepeatSingle.
Proof.
  intros S N R P C. revert n p S N R.
  induction k as [|k IH]; intros n p S N R.
  - exists p. now repeat split.
  - destruct (natural_end_step fuel w n p cur cur (queue p) S N)
      as (p1 & log & E & N1 & Q1 & S1 & R1); [now rewrite R|exact P|apply C|].
    simpl. rewrite E. rewrite R in R1.
    destruct (IH (Datatypes.S n) p1 S1 N1 R1) as (p' & E' & A & B & D & F).
    exists p'. rewrite Q1 in B. now repeat split.
Qed.

Lemma rotate_forall (P : Track -> Prop) l : Forall P l -> Forall P (rotate l).
Proof.
  destruct l as [|t l]; [trivial|]. intros H. apply Forall_cons_iff in H.
  destruct H as [Ht Hl]. simpl. apply Forall_app.
  split; [exact Hl|]. constructor; [exact Ht|constructor].
Qed.

Lemma iter_rotate_forall (P : Track -> Prop) k l :
  Forall P l -> Forall P (Nat.iter k rotate l).
Proof. intros H. induction k; simpl; [exact H|now apply rotate_forall]. Qed.

Lemma iter_rotate_comm k l : Nat.iter k rotate (rotate l) = rotate (Nat.iter k rotate l).
Proof. induction k; simpl; [reflexivity|now rewrite IHk]. Qed.

Lemma iter_rotate_app a b :
  Nat.iter (List.length a) rotate (a ++ b) = b ++ a.
Proof.
  revert b. induction a as [|x a IH]; intros b; simpl List.length.
  - simpl. now rewrite app_nil_r.
  - change (Nat.iter (S (List.length a)) rotate ((x :: a) ++ b))
      with (rotate (Nat.iter (List.length a) rotate ((x :: a) ++ b))).
    rewrite <- iter_rotate_comm. simpl rotate. rewrite <- app_assoc.
    rewrite IH. now rewrite <- app_assoc.
Qed.

Lemma iter_rotate_length l : Nat.iter (List.length l) rotate l = l.
Proof.
  rewrite <- (app_nil_r l) at 2. rewrite iter_rotate_app. reflexivity.
Qed.

(** X9.  Under repeat ALL the tracks, all ready and playable, are
    played round and round in their order: after [k] natural ends the
    playing track followed by the queue is the list it was, rotated [k]
    times; so after as many natural ends as there are tracks the session
    plays the same track with the same queue again. *)
Theorem all_plays_round_robin
    (k : nat) (fuel : nat) (w : World) (n : nat) (p : Player) (cur : Track) :
  state p = Playing ->
  now p = Some cur ->
  repeat p = RepeatAll ->
  Forall (fun t => pending t = false /\
                   forall i, can_play (w i) (stream_url t) = true)
         (cur :: queue p) ->
  exists p' c,
    play_through k (S fuel) w n p = Some p' /\
    now p' = Some c /\
    c :: queue p' = Nat.iter k rotate (cur :: queue p) /\
    state p' = Playing /\ repeat p' = RepeatAll /\
    (k = S (List.length (queue p)) -> c = cur /\ queue p' = queue p).
Proof.
  intros S N R F.
  assert (G : exists p' c,
    play_through k (Datatypes.S fuel) w n p = Some p' /\
    now p' = Some c /\
    c :: queue p' = Nat.iter k rotate (cur :: queue p) /\
    state p' = Playing /\ repeat p' = RepeatAll).
  2:{ destruct G as (p' & c & E & N' & A & B & D). exists p', c.
      split; [exact E|]. split; [exact N'|]. split; [exact A|].
      split; [exact B|]. split; [exact D|]. intros K. subst k.
      change (Datatypes.S (List.length (queue p)))
        with (List.length (cur :: queue p)) in A.
      rewrite iter_rotate_length in A. injection A as -> ->. now split. }
  revert n p cur S N R F. induction k as [|k IH]; intros n p cur S N R F.
  - exists p, cur. now repeat split.
  - assert (F' := rotate_forall _ _ F). simpl rotate in F'.
    destruct (queue p ++ [cur]) as [|nxt rest] eqn:Q.
    { destruct (queue p); discriminate. }
    apply Forall_cons_iff in F'. destruct F' as [[P C] F'].
    destruct (natural_end_step fuel w n p cur nxt rest S N)
      as (p1 & log & E & N1 & Q1 & S1 & R1);
      [now rewrite R|exact P|apply C|].
    rewrite R in R1.
    destruct (IH (Datatypes.S n) p1 nxt S1 N1 R1)
      as (p' & c & E' & N' & A & B & D).
    { rewrite Q1. constructor; [now split|exact F']. }
    exists p', c. simpl play_through. rewrite E. split; [exact E'|].
    split; [exact N'|]. split; [|now split].
    rewrite A, Q1. change (Nat.iter (Datatypes.S k) rotate (cur :: queue p))
      with (rotate (Nat.iter k rotate (cur :: queue p))).
    rewrite <- iter_rotate_comm. simpl rotate. now rewrite Q.
Qed.

Lemma single_repeats_for_ever_witness :
  exists p',
    play_through 5 1 (Samples.always Samples.offline) 0
      (Samples.playing_A RepeatSingle) = Some p' /\
    now p' = Some Samples.trackA /\ queue p' = [Samples.trackB] /\
    state p' = Playing /\ repeat p' = RepeatSingle.
Proof.
  apply (single_repeats_for_ever 5 0 (Samples.always Samples.offline) 0
           (Samples.playing_A RepeatSingle) Samples.trackA); reflexivity.
Defined.

Lemma all_plays_round_robin_witness :
  exists p' c,
    play_through 2 1 (Samples.always Samples.offline) 0
      (Samples.playing_A RepeatAll) = Some p' /\
    now p' = Some c /\
    c :: queue p' = [Samples.trackA; Samples.trackB] /\
    state p' = Playing /\ repeat p' = RepeatAll /\
    (2%nat = 2%nat -> c = Samples.trackA /\ queue p' = [Samples.trackB]).
Proof.
  apply (all_plays_round_robin 2 0 (Samples.always Samples.offline) 0
           (Samples.playing_A RepeatAll) Samples.trackA); try reflexivity.
  repeat constructor.
Defined.

End RepeatFacts.

(** ** Pause, leave and shuffle *)

Module ControlsFacts.
Import Scheduler Controls.

Lemma assign_length {A} i (v : A) x : List.length (assign i v x) = List.length x.
Proof.
  revert i. induction x as [|a x IH]; intros [|i]; simpl; auto.
Qed.

Lemma nth_error_assign_same {A} i (v : A) x :
  (i < List.length x)%nat -> nth_error (assign i v x) i = Some v.
Proof.
  revert i. induction x as [|a x IH]; intros [|i] H; simpl in *; try lia; auto.
  apply IH. lia.
Qed.

Lemma nth_error_assign_other {A} i j (v : A) x :
  i <> j -> nth_error (assign i v x) j = nth_error x j.
Proof.
  revert i j. induction x as [|a x IH]; intros [|i] [|j] H; simpl; auto.
  congruence.
Qed.

(** Writing [v] where [a] stood trades [a] for [v]. *)
Lemma assign_perm {A} i (v a : A) x :
  nth_error x i = Some a -> Permutation (a :: assign i v x) (v :: x).
Proof.
  revert i. induction x as [|b x IH]; intros [|i] H; simpl in *; try discriminate.
  - injection H as ->. apply perm_swap.
  - transitivity (b :: a :: assign i v x); [apply perm_swap|].
    transitivity (b :: v :: x); [|apply perm_swap].
    constructor. now apply IH.
Qed.

Lemma swap_perm {A} i j (x : list A) : Permutation (swap i j x) x.
Proof.
  unfold swap. destruct (nth_error x j) as [b|] eqn:Hj; [|reflexivity].
  destruct (nth_error x i) as [a|] eqn:Hi; [|reflexivity].
  apply (Permutation_cons_inv (a := b)).
  assert (Hj' : nth_error (assign i b x) j = Some b).
  { destruct (Nat.eq_dec i j) as [->|N].
    - apply nth_error_assign_same. apply nth_error_Some. congruence.
    - now rewrite nth_error_assign_other. }
  transitivity (a :: assign i b x).
  - exact (assign_perm j a b _ Hj').
  - exact (assign_perm i b a x Hi).
Qed.

Lemma shuffle_down_perm {A} i draw (x : list A) :
  Permutation (shuffle_down i draw x) x.
Proof.
  revert x. induction i as [|i IH]; intros x; simpl; [reflexivity|].
  rewrite IH. apply swap_perm.
Qed.


(** X10.  Whatever numbers are drawn, the shuffle button leaves in the
    queue the same tracks, each as many times as before, and so as many
    of them; a queue of one track or none is left as it is; and the
    playing track, the voice client, the volume and the repeat mode are
    not touched. *)
Theorem shuffle_keeps_the_tracks (env : Env) (draw : nat -> nat) (p : Player) :
  let p' := shuffle_btn env draw p in
  Permutation (queue p') (queue p) /\
  List.length (queue p') = List.length (queue p) /\
  ((List.length (queue p) <= 1)%nat -> queue p' = queue p) /\
  now p' = now p /\ voice_client p' = voice_client p /\
  volume p' = volume p /\ repeat p' = repeat p.
Proof.
  cbv zeta. unfold shuffle_btn, shuffle. cbn.
  split; [apply shuffle_down_perm|].
  split; [apply Permutation_length, shuffle_down_perm|].
  split; [|now repeat split].
  intros H. destruct (queue p) as [|a [|b q]]; try reflexivity.
  simpl in H. lia.
Qed.






(** X12.  Pausing a playing session and resuming it gives back the voice
    client as it was, with the same source at the same volume; neither
    step makes the callback fire, so nothing advances, and the queue, the
    playing track, the volume and the repeat mode stay as they were.  The
    toggle button of the panel does what the two commands do, and a
    paused track never comes to its natural end. *)
Theorem pause_then_resume_restores (env env' : Env) (p : Player) (s : Source) :
  voice_client p = Some (VcPlaying s) ->
  let paused := Cog.pause env p in
  let resumed := Cog.resume env' (out_player paused) in
  (state (out_player paused) = Paused /\ out_after paused = false /\
   out_reply paused = PausedReply) /\
  (voice_client (out_player resumed) = voice_client p /\
   out_after resumed = false /\ out_reply resumed = ResumedReply /\
   queue (out_player resumed) = queue p /\
   now (out_player resumed) = now p /\
   volume (out_player resumed) = volume p /\
   repeat (out_player resumed) = repeat p) /\
  (pause_resume env p = paused /\
   pause_resume env' (out_player paused) = resumed) /\
  Session.track_ends (out_player paused) = (out_player paused, false).
Proof.
  intros V. cbv zeta.
  unfold Cog.pause, Cog.resume, pause_resume, Session.track_ends, state.
  cbn [touch_panel set_panel_last_active voice_client]. rewrite V.
  cbn. repeat split; try reflexivity; now rewrite ?V.
Qed.

Lemma pause_then_resume_restores_witness :
  voice_client
    (out_player
       (Cog.resume Samples.online
          (out_player (Cog.pause Samples.offline
                         (Samples.playing_A RepeatOff)))))
  = voice_client (Samples.playing_A RepeatOff).
Proof.
  destruct (pause_then_resume_restores Samples.offline Samples.online
              (Samples.playing_A RepeatOff)
              {| src_url := stream_url Samples.trackA; src_volume := 0.15 |}
              eq_refl) as (_ & (A & _) & _).
  exact A.
Defined.

End ControlsFacts.

(** ** The paging loop of the playlist import *)

Module ImportFacts.
Import Playlist ImportSpec.
Open Scope Z_scope.

Lemma limit_reached_spec n :
  limit_reached n = true <-> SPOTIFY_PLAYLIST_LIMIT <= n.
Proof.
  unfold limit_reached, SPOTIFY_PLAYLIST_LIMIT. simpl. apply Z.leb_le.
Qed.

Lemma limit_not_reached n :
  limit_reached n = false <-> n < SPOTIFY_PLAYLIST_LIMIT.
Proof.
  unfold limit_reached, SPOTIFY_PLAYLIST_LIMIT. simpl. apply Z.leb_gt.
Qed.

Lemma track_of_is_lazy track_obj : stream_url (track_of track_obj) = None.
Proof. reflexivity. Qed.

(** One page: the tracks are appended until the limit is met. *)
Lemma add_items_counted q0 items s :
  counted q0 s -> fetched s < SPOTIFY_PLAYLIST_LIMIT ->
  counted q0 (add_items items s) /\
  fetched (add_items items s) <= SPOTIFY_PLAYLIST_LIMIT /\
  offset (add_items items s) = offset s.
Proof.
  revert s. induction items as [|[t|] items IH]; intros s C L; simpl.
  - split; [exact C|]. split; [lia|reflexivity].
  - destruct C as (tracks & Q & N & A & F).
    assert (C1 : counted q0
              {| fetched := fetched s + 1; offset := offset s;
                 added := added s + 1;
                 imp_player :=
                   set_queue (queue (imp_player s) ++ [track_of t])
                     (imp_player s) |}).
    { exists (tracks ++ [track_of t]). simpl. rewrite Q, <- app_assoc.
      split; [reflexivity|]. rewrite length_app. simpl.
      split; [lia|]. split; [lia|].
      apply Forall_app. split; [exact F|]. now repeat constructor. }
    destruct (limit_reached (fetched s + 1)) eqn:R.
    + split; [exact C1|]. simpl. split; [lia|reflexivity].
    + apply limit_not_reached in R.
      destruct (IH _ C1 R) as (C2 & L2 & O2). now repeat split.
  - now apply IH.
Qed.

(** One turn of the loop. *)
Lemma turn_counted q0 api total s :
  counted q0 s -> fetched s < SPOTIFY_PLAYLIST_LIMIT ->
  match turn api total s with
  | Continue s' =>
      counted q0 s' /\ fetched s' < SPOTIFY_PLAYLIST_LIMIT /\
      offset s < offset s' /\
      match total with Some t => offset s' < t | None => True end
  | Break s' => counted q0 s' /\ fetched s' <= SPOTIFY_PLAYLIST_LIMIT
  | Raise s' => s' = s
  end.
Proof.
  intros C L. unfold turn. pose proof (PlaylistFacts.page_size_pos s) as P.
  destruct (Z.leb_spec (page_size s) 0) as [|_]; [lia|].
  destruct (playlist_items api (page_size s) (offset s)) as [items|];
    [|reflexivity].
  destruct (Py.is_empty items); [split; [exact C|lia]|]. cbv zeta.
  destruct (add_items_counted q0 items s C L) as (C1 & L1 & O1).
  assert (C2 : counted q0
            {| fetched := fetched (add_items items s);
               offset := offset (add_items items s)
                         + Z.of_nat (List.length items);
               added := added (add_items items s);
               imp_player := imp_player (add_items items s) |}) by exact C1.
  cbn [fetched offset].
  destruct (limit_reached (fetched (add_items items s))) eqn:R;
    [split; [exact C2|exact L1]|].
  apply limit_not_reached in R.
  destruct total as [t|].
  - destruct (Z.leb_spec t
                (offset (add_items items s) + Z.of_nat (List.length items)));
      [split; [exact C2|exact L1]|].
    destruct (Z.ltb_spec (Z.of_nat (List.length items)) (page_size s));
      [split; [exact C2|exact L1]|].
    split; [exact C2|]. split; [exact R|]. cbn [offset]. split; lia.
  - destruct (Z.ltb_spec (Z.of_nat (List.length items)) (page_size s));
      [split; [exact C2|exact L1]|].
    split; [exact C2|]. split; [exact R|]. cbn [offset]. split; [lia|exact I].
Qed.

Lemma fetch_loop_counted q0 fuel api total s r :
  counted q0 s -> fetched s < SPOTIFY_PLAYLIST_LIMIT ->
  fetch_loop fuel api total s = Some r ->
  counted q0 (last r) /\ fetched (last r) <= SPOTIFY_PLAYLIST_LIMIT.
Proof.
  revert s. induction fuel as [|fuel IH]; intros s C L H; [discriminate|].
  simpl in H. pose proof (turn_counted q0 api total s C L) as T.
  destruct (turn api total s) as [s'|s'|s'].
  - destruct T as (C' & L' & _). exact (IH s' C' L' H).
  - injection H as <-. exact T.
  - injection H as <-. subst s'. split; [exact C|]. simpl. lia.
Qed.

(** With the total of the playlist known, the offset grows at every
    turn that goes on and stays below the total: the loop ends. *)
Lemma fetch_loop_ends q0 fuel api t s :
  counted q0 s -> fetched s < SPOTIFY_PLAYLIST_LIMIT ->
  (Z.to_nat (t - offset s) < fuel)%nat ->
  fetch_loop fuel api (Some t) s <> None.
Proof.
  revert s. induction fuel as [|fuel IH]; intros s C L F; [lia|].
  simpl. pose proof (turn_counted q0 api (Some t) s C L) as T.
  destruct (turn api (Some t) s) as [s'|s'|s']; try discriminate.
  destruct T as (C' & L' & O & O'). apply (IH s' C' L'). lia.
Qed.

Lemma counted_start p :
  counted (queue p)
    {| fetched := 0; offset := 0; added := 0; imp_player := p |}.
Proof.
  exists []. simpl. rewrite app_nil_r. repeat split. constructor.
Qed.

(** X13.  One playlist import appends to the queue at most
    SPOTIFY_PLAYLIST_LIMIT (200) tracks, however long the playlist and
    whatever the pages hold, and whether the loop ends by itself or on a
    page that cannot be fetched: the queue is what it was, followed by
    the tracks added, each still without a stream, and the number
    reported is their count.  When the metadata gave the total of the
    playlist, the paging loop ends within that many turns and one. *)
Theorem import_respects_the_limit
    (fuel : nat) (api : Api) (total : option Z) (p : Player) :
  (forall r,
     fetch_loop fuel api total
       {| fetched := 0; offset := 0; added := 0; imp_player := p |} = Some r ->
     exists tracks,
       queue (imp_player (last r)) = queue p ++ tracks /\
       Z.of_nat (List.length tracks) = added (last r) /\
       added (last r) <= SPOTIFY_PLAYLIST_LIMIT /\
       Forall (fun t => stream_url t = None) tracks) /\
  (forall t,
     total = Some t -> (Z.to_nat t < fuel)%nat ->
     fetch_loop fuel api total
       {| fetched := 0; offset := 0; added := 0; imp_player := p |} <> None).
Proof.
  assert (L : fetched {| fetched := 0; offset := 0; added := 0;
                         imp_player := p |} < SPOTIFY_PLAYLIST_LIMIT)
    by (unfold SPOTIFY_PLAYLIST_LIMIT; simpl; lia).
  split.
  - intros r H.
    destruct (fetch_loop_counted (queue p) fuel api total _ r
                (counted_start p) L H) as ((tracks & Q & N & A & F) & B).
    exists tracks. split; [exact Q|]. split; [exact N|]. split; [lia|exact F].
  - intros t -> F.
    apply (fetch_loop_ends (queue p) fuel api t _ (counted_start p) L).
    simpl. now rewrite Z.sub_0_r.
Qed.

Lemma import_respects_the_limit_witness :
  exists r,
    fetch_loop 501 long_list (Some 500)
      {| fetched := 0; offset := 0; added := 0;
         imp_player := Samples.idle_with [Samples.trackA] |} = Some r /\
    added (last r) = 200 /\
    List.length (queue (imp_player (last r))) = 201%nat.
Proof.
  destruct (import_respects_the_limit 501 long_list (Some 500)
              (Samples.idle_with [Samples.trackA])) as [_ Ends].
  specialize (Ends 500 eq_refl).
  destruct (fetch_loop 501 long_list (Some 500) _) as [r|] eqn:E.
  - exists r. split; [reflexivity|].
    vm_compute in E. injection E as <-. split; reflexivity.
  - exfalso. apply Ends; [simpl; lia|reflexivity].
Defined.

End ImportFacts.
